(** * DocShot: the directional-gradient kernel

    A shallow embedding of [directional_gradient_accumulate]
    (app/src/main/cpp/directional_gradient.cpp) and the properties of its
    four stages: accumulation over tilt angles, combination and
    normalisation, percentile threshold selection, binarisation.

    Buffers are lists of integers read and written by index; an access
    outside a buffer, a division by zero, a signed overflow of
    [rows * cols] and an out-of-range float-to-int conversion are
    undefined behaviour in C++ and are modelled by [None]. *)

From stdpp Require Import base tactics numbers option list list_numbers.

Local Open Scope Z_scope.

(** ** Single-precision arithmetic

    [threshold_percentile] is a C++ [float]; the only float operations of
    the kernel are the conversion of [total_pixels] to [float], one
    multiplication and the truncating conversion back to [int].  A finite
    value is kept as a dyadic number [m * 2^e]; the sign of zero is not
    kept since no operation used here observes it.  Arithmetic is IEEE
    754 binary32 with round-to-nearest-even, each operation rounded to
    [float] (as on ARM64 and x86-64). *)
Module Float32.

Inductive t : Type :=
| NaN
| Inf (neg : bool)
| Fin (m e : Z).

(** Round [X / 2^s] to the nearest integer, ties to even. *)
Definition rne (X s : Z) : Z :=
  let lo := X `div` 2 ^ s in
  let rem := X `mod` 2 ^ s in
  if (2 ^ s <? 2 * rem) || ((2 * rem =? 2 ^ s) && Z.odd lo) then lo + 1 else lo.

(** The exponent, relative to the scale [2^-L], of the last kept bit of
    a positive number [Y * 2^-L]: 24 significant bits, and never below
    the least subnormal exponent -149. *)
Definition shift_of (L Y : Z) : Z := Z.max (Z.log2 Y - 23) (L - 149).

(** Round the positive dyadic [m * 2^e] to binary32, ties to even, with
    overflow to infinity at [2^128]. The number is first written as
    [X * 2^-L] for a scale [L >= 149] fine enough for [e]. *)
Definition round_pos (neg : bool) (m e : Z) : t :=
  let L := - Z.min e (-149) in
  let X := m * 2 ^ (e + L) in
  let s := shift_of L X in
  let r := rne X s in
  if 128 <=? Z.log2 r + (s - L) then Inf neg
  else Fin (if neg then - r else r) (s - L).

Definition round (m e : Z) : t :=
  if m =? 0 then Fin 0 0
  else if m <? 0 then round_pos true (- m) e
  else round_pos false m e.

(** [static_cast<float>(n)] of an [int] (the usual arithmetic
    conversion applied to [total_pixels]). *)
Definition of_int (n : Z) : t := round n 0.

Definition mul (a b : t) : t :=
  match a, b with
  | NaN, _ | _, NaN => NaN
  | Inf s1, Inf s2 => Inf (xorb s1 s2)
  | Inf s, Fin m _ | Fin m _, Inf s =>
      if m =? 0 then NaN else Inf (xorb s (m <? 0))
  | Fin m1 e1, Fin m2 e2 => round (m1 * m2) (e1 + e2)
  end.

(** [static_cast<int>(f)]: truncation toward zero; undefined when the
    truncated value does not fit an [int] (and for NaN, infinities). *)
Definition to_int (f : t) : option Z :=
  match f with
  | Fin m e =>
      let v := if 0 <=? e then m * 2 ^ e else m `quot` 2 ^ (- e) in
      if (- 2 ^ 31 <=? v) && (v <? 2 ^ 31) then Some v else None
  | _ => None
  end.

(** Comparison [a <= b] (false when either side is NaN). *)
Definition leb (a b : t) : bool :=
  match a, b with
  | NaN, _ | _, NaN => false
  | Inf true, _ => true
  | _, Inf false => true
  | Inf false, _ => false
  | _, Inf true => false
  | Fin m1 e1, Fin m2 e2 =>
      let e0 := Z.min e1 e2 in
      m1 * 2 ^ (e1 - e0) <=? m2 * 2 ^ (e2 - e0)
  end.

(** The values a [float] variable can hold. *)
Definition is_binary32 (f : t) : bool :=
  match f with
  | Fin m e => (m =? 0) || ((-149 <=? e) && (Z.abs m <? 2 ^ 24)
                            && (Z.log2 (Z.abs m) + e <? 128))
  | _ => true
  end.

Definition zero : t := Fin 0 0.
Definition one : t := Fin 1 0.

(** [q <= count / total] in exact arithmetic, for [total >= 0]. *)
Definition fraction_le (q : t) (count total : Z) : bool :=
  match q with
  | NaN => false
  | Inf neg => neg
  | Fin m e =>
      if 0 <=? e then m * 2 ^ e * total <=? count
      else m * total <=? count * 2 ^ (- e)
  end.

(** [floor (n * q)] in exact arithmetic, for finite [q]. *)
Definition floor_mul (n : Z) (q : t) : option Z :=
  match q with
  | Fin m e => Some (if 0 <=? e then n * m * 2 ^ e else (n * m) `div` 2 ^ (- e))
  | _ => None
  end.

(** The rounding of [Y * 2^-L], [Y > 0], as a multiple of [2^-L], and
    its extension to all integers [Y]. *)
Definition rounded (L Y : Z) : Z := rne Y (shift_of L Y) * 2 ^ shift_of L Y.

Definition srounded (L Y : Z) : Z :=
  if Y =? 0 then 0 else if Y <? 0 then - rounded L (- Y) else rounded L Y.

End Float32.

(** ** Machine integers and buffers *)

(** Conversion of an unsigned 32-bit sum back to [int32_t]. *)
Definition wrap_int32 (z : Z) : Z := (z + 2 ^ 31) `mod` 2 ^ 32 - 2 ^ 31.

(** [static_cast<uint8_t>]. *)
Definition to_uint8 (z : Z) : Z := z `mod` 256.

(** [buf[i]] as an rvalue. *)
Definition load (buf : list Z) (i : Z) : option Z :=
  if decide (0 ≤ i) then buf !! Z.to_nat i else None.

(** [buf[i] = v]. *)
Definition store (buf : list Z) (i v : Z) : option (list Z) :=
  if decide (0 ≤ i < Z.of_nat (length buf)) then Some (<[Z.to_nat i := v]> buf)
  else None.

(** [calloc(n, sizeof(int32_t))] when it succeeds. *)
Definition calloc (n : Z) : list Z := replicate (Z.to_nat n) 0.

(** [memset(buf, 0, n)]. *)
Definition memset0 (buf : list Z) (n : Z) : option (list Z) :=
  if decide (0 ≤ n ≤ Z.of_nat (length buf))
  then Some (replicate (Z.to_nat n) 0 ++ drop (Z.to_nat n) buf)
  else None.

(** The body of a [for] loop run over the successive values of its
    index. *)
Fixpoint iterate {St : Type} (body : Z → St → option St) (idxs : list Z) (s : St)
  : option St :=
  match idxs with
  | [] => Some s
  | i :: rest => s' ← body i s; iterate body rest s'
  end.

(** [for (int i = lo; i < hi; i++) body]. *)
Definition for_range {St : Type} (lo hi : Z) (body : Z → St → option St) (s : St)
  : option St :=
  iterate body (seqZ lo (hi - lo)) s.

(** ** The kernel *)

(** The five buffers the caller hands over. *)
Record buffers : Type := MkBuffers {
  gy_data : list Z;
  gx_data : list Z;
  result_data : list Z;
  h_offsets : list Z;
  v_offsets : list Z
}.

(** The scalar arguments. *)
Record params : Type := MkParams {
  rows : Z;
  cols : Z;
  num_angles : Z;
  kernel_length : Z;
  margin_y : Z;
  margin_x : Z;
  threshold_percentile : Float32.t
}.

(** Whether each of the two [calloc] calls returns a buffer. *)
Record heap : Type := MkHeap {
  h_response_ok : bool;
  v_response_ok : bool
}.

Definition with_result (b : buffers) (out : list Z) : buffers :=
  {| gy_data := gy_data b; gx_data := gx_data b; result_data := out;
     h_offsets := h_offsets b; v_offsets := v_offsets b |}.

Section Kernel.
Variable p : params.
Variable b : buffers.

Definition total_pixels : Z := rows p * cols p.

(** One iteration of the [k] loop (lines 44-47). *)
Definition tap_step (a base_idx k : Z) (sums : Z * Z) : option (Z * Z) :=
  let '(sum_h, sum_v) := sums in
  hk ← load (h_offsets b) (a * kernel_length p + k);
  gyv ← load (gy_data b) (base_idx + hk);
  vk ← load (v_offsets b) (a * kernel_length p + k);
  gxv ← load (gx_data b) (base_idx + vk);
  Some (wrap_int32 (sum_h + gyv), wrap_int32 (sum_v + gxv)).

(** One iteration of the [x] loop (lines 40-50). *)
Definition pixel_step (a y x : Z) (acc : list Z * list Z)
  : option (list Z * list Z) :=
  let '(h_response, v_response) := acc in
  let base_idx := y * cols p + x in
  '(sum_h, sum_v) ← for_range 0 (kernel_length p) (tap_step a base_idx) (0, 0);
  hcur ← load h_response base_idx;
  h_response ← (if decide (sum_h > hcur) then store h_response base_idx sum_h
                else Some h_response);
  vcur ← load v_response base_idx;
  v_response ← (if decide (sum_v > vcur) then store v_response base_idx sum_v
                else Some v_response);
  Some (h_response, v_response).

Definition row_step (a y : Z) (acc : list Z * list Z)
  : option (list Z * list Z) :=
  for_range (margin_x p) (cols p - margin_x p) (pixel_step a y) acc.

Definition angle_step (a : Z) (acc : list Z * list Z)
  : option (list Z * list Z) :=
  for_range (margin_y p) (rows p - margin_y p) (row_step a) acc.

(** The accumulation with the angles taken in the order [angles]. *)
Definition accumulate_angles (angles : list Z) (acc : list Z * list Z)
  : option (list Z * list Z) :=
  iterate angle_step angles acc.

(** Step 4 (lines 33-53). *)
Definition accumulate : option (list Z * list Z) :=
  for_range 0 (num_angles p) angle_step
    (calloc total_pixels, calloc total_pixels).

(** Step 5, first pass (lines 56-61): the state is [h_response] and
    [global_max]. *)
Definition combine_step (v_response : list Z) (i : Z) (st : list Z * Z)
  : option (list Z * Z) :=
  let '(h_response, global_max) := st in
  hi ← load h_response i;
  vi ← load v_response i;
  let combined := if decide (hi > vi) then hi else vi in
  h_response ← store h_response i combined;
  Some (h_response, if decide (combined > global_max) then combined else global_max).

Definition combine (h_response v_response : list Z) : option (list Z * Z) :=
  for_range 0 total_pixels (combine_step v_response) (h_response, 1).

(** [h_response[i] * 255 / global_max] in 64 bits, converted to [int]. *)
Definition scale (hi global_max : Z) : option Z :=
  if decide (global_max = 0) then None
  else Some (wrap_int32 ((hi * 255) `quot` global_max)).

Definition clamp (normalized : Z) : Z :=
  let normalized := if decide (normalized < 0) then 0 else normalized in
  if decide (normalized > 255) then 255 else normalized.

(** Second pass (lines 67-75): the state is [result_data] and
    [histogram]. *)
Definition normalize_step (h_response : list Z) (global_max : Z) (i : Z)
    (st : list Z * list Z) : option (list Z * list Z) :=
  let '(result, histogram) := st in
  hi ← load h_response i;
  normalized ← scale hi global_max;
  let normalized := clamp normalized in
  result ← store result i (to_uint8 normalized);
  count ← load histogram normalized;
  histogram ← store histogram normalized (count + 1);
  Some (result, histogram).

Definition normalize (h_response : list Z) (global_max : Z) (result : list Z)
  : option (list Z * list Z) :=
  for_range 0 total_pixels (normalize_step h_response global_max)
    (result, replicate 256 0).

(** Line 81. *)
Definition compute_target : option Z :=
  Float32.to_int
    (Float32.mul (Float32.of_int total_pixels) (threshold_percentile p)).

(** The histogram walk (lines 84-90) over the bins [bins] still to
    visit: the bin at which the loop breaks, if it does. *)
Fixpoint walk (histogram : list Z) (target : Z) (bins : list Z) (cum_sum : Z)
  : option Z :=
  match bins with
  | [] => None
  | i :: rest =>
      let cum_sum := cum_sum + histogram !!! Z.to_nat i in
      if decide (cum_sum >= target) then Some i
      else walk histogram target rest cum_sum
  end.

Definition find_bin (histogram : list Z) (target : Z) : option Z :=
  walk histogram target (seqZ 0 256) 0.

(** Lines 82-90: [threshold_val] starts at 255. *)
Definition select_threshold (histogram : list Z) (target : Z) : Z :=
  default 255 (find_bin histogram target).

(** Lines 93-95. *)
Definition binarize_step (threshold_val : Z) (i : Z) (result : list Z)
  : option (list Z) :=
  ri ← load result i;
  store result i (if decide (ri > threshold_val) then 255 else 0).

Definition binarize (threshold_val : Z) (result : list Z) : option (list Z) :=
  for_range 0 total_pixels (binarize_step threshold_val) result.

(** The stages after a successful allocation, with every intermediate
    value. *)
Record trace : Type := MkTrace {
  t_h_acc : list Z;
  t_v_acc : list Z;
  t_combined : list Z;
  t_global_max : Z;
  t_normalized : list Z;
  t_histogram : list Z;
  t_target : Z;
  t_threshold : Z;
  t_output : list Z
}.

Definition run_stages : option trace :=
  '(h_acc, v_acc) ← accumulate;
  '(combined, global_max) ← combine h_acc v_acc;
  '(normalized, histogram) ← normalize combined global_max (result_data b);
  target ← compute_target;
  let threshold_val := select_threshold histogram target in
  output ← binarize threshold_val normalized;
  Some (MkTrace h_acc v_acc combined global_max normalized histogram target
          threshold_val output).

(** [directional_gradient_accumulate]: the buffers on return. *)
Definition directional_gradient_accumulate (hp : heap) : option buffers :=
  if decide (0 ≤ total_pixels < 2 ^ 31) then
    if h_response_ok hp && v_response_ok hp then
      tr ← run_stages; Some (with_result b (t_output tr))
    else
      out ← memset0 (result_data b) total_pixels; Some (with_result b out)
  else None.

End Kernel.

(** ** Preconditions and specification-level notions *)

(** Pixel [(y, x)] lies inside the margins. *)
Definition interior (p : params) (y x : Z) : Prop :=
  margin_y p ≤ y < rows p - margin_y p ∧ margin_x p ≤ x < cols p - margin_x p.

(** Every offset of the table, applied to every interior pixel, stays
    inside the image. *)
Definition offsets_in_bounds (p : params) (offs : list Z) : Prop :=
  ∀ a k y x,
    0 ≤ a < num_angles p → 0 ≤ k < kernel_length p → interior p y x →
    0 ≤ y * cols p + x + offs !!! Z.to_nat (a * kernel_length p + k)
      < total_pixels p.

(** The same condition as a computation over the finitely many angles,
    taps and interior pixels. *)
Definition offsets_in_bounds_check (p : params) (offs : list Z) : bool :=
  forallb (λ a,
    forallb (λ k,
      forallb (λ y,
        forallb (λ x,
          let i := y * cols p + x + offs !!! Z.to_nat (a * kernel_length p + k) in
          (0 <=? i) && (i <? total_pixels p))
          (seqZ (margin_x p) (cols p - margin_x p - margin_x p)))
        (seqZ (margin_y p) (rows p - margin_y p - margin_y p)))
      (seqZ 0 (kernel_length p)))
    (seqZ 0 (num_angles p)).

(** The caller-enforced preconditions of the kernel. *)
Record valid_input (p : params) (b : buffers) : Prop := {
  vi_rows : 0 ≤ rows p;
  vi_cols : 0 ≤ cols p;
  vi_total : total_pixels p < 2 ^ 31;
  vi_angles : 0 ≤ num_angles p;
  vi_kernel : 0 ≤ kernel_length p;
  vi_margin_y : 0 ≤ margin_y p;
  vi_margin_x : 0 ≤ margin_x p;
  vi_gy_len : Z.of_nat (length (gy_data b)) = total_pixels p;
  vi_gx_len : Z.of_nat (length (gx_data b)) = total_pixels p;
  vi_result_len : Z.of_nat (length (result_data b)) = total_pixels p;
  vi_h_len : Z.of_nat (length (h_offsets b)) = num_angles p * kernel_length p;
  vi_v_len : Z.of_nat (length (v_offsets b)) = num_angles p * kernel_length p;
  vi_gy_bytes : Forall (λ s, 0 ≤ s < 256) (gy_data b);
  vi_gx_bytes : Forall (λ s, 0 ≤ s < 256) (gx_data b);
  vi_h_bounds : offsets_in_bounds p (h_offsets b);
  vi_v_bounds : offsets_in_bounds p (v_offsets b)
}.

(** The value the [k] loop leaves in [sum_h] (or [sum_v]) for angle [a]
    at the pixel of linear index [base_idx]. *)
Definition tap_sum (K : Z) (offs data : list Z) (a base_idx : Z) : Z :=
  foldl (λ sum k,
           wrap_int32 (sum + data !!! Z.to_nat (base_idx + offs !!! Z.to_nat (a * K + k))))
        0 (seqZ 0 K).

(** The kernel-tap sum as the specification writes it: the plain sum of
    the samples at [pixel + offset[a, k]] for [k] in [[0, K)]. *)
Definition kernel_sum (K : Z) (offs data : list Z) (a pixel : Z) : Z :=
  foldr Z.add 0
    ((λ k, data !!! Z.to_nat (pixel + offs !!! Z.to_nat (a * K + k))) <$> seqZ 0 K).

(** [h[i] = max(h[i], s)] as lines 49-50 perform it. *)
Definition raise (h : list Z) (u : Z * Z) : list Z :=
  alter (Z.max u.2) (Z.to_nat u.1) h.

(** The updates one accumulator receives: one [(index, sum)] pair per
    angle and interior pixel, in loop order. *)
Definition updates (p : params) (offs data : list Z) (angles : list Z)
  : list (Z * Z) :=
  a ← angles;
  y ← seqZ (margin_y p) (rows p - margin_y p - margin_y p);
  x ← seqZ (margin_x p) (cols p - margin_x p - margin_x p);
  [(y * cols p + x, tap_sum (kernel_length p) offs data a (y * cols p + x))].

(** The largest sum written at index [j] by a list of updates, starting
    from the value [m]. *)
Definition best (j : Z) (us : list (Z * Z)) (m : Z) : Z :=
  foldl (λ m u, if decide (u.1 = j) then Z.max u.2 m else m) m us.

(** The accumulator buffers on exit of step 4, as the updates applied to
    the zeroed buffers. *)
Definition h_final (p : params) (b : buffers) : list Z :=
  foldl raise (calloc (total_pixels p))
    (updates p (h_offsets b) (gy_data b) (seqZ 0 (num_angles p))).
Definition v_final (p : params) (b : buffers) : list Z :=
  foldl raise (calloc (total_pixels p))
    (updates p (v_offsets b) (gx_data b) (seqZ 0 (num_angles p))).

(** The value line 58 computes. *)
Definition combined_value (hi vi : Z) : Z := if decide (hi > vi) then hi else vi.

(** The update of [global_max] on line 60. *)
Definition raise_max (global_max combined : Z) : Z :=
  if decide (combined > global_max) then combined else global_max.

(** The value of [normalized] after the two clamps (lines 68-72). *)
Definition normalized_value (global_max combined : Z) : Z :=
  clamp (wrap_int32 ((combined * 255) `quot` global_max)).

(** [histogram[v]++]. *)
Definition count_in (histogram : list Z) (v : Z) : list Z :=
  <[Z.to_nat v := histogram !!! Z.to_nat v + 1]> histogram.

(** The histogram of a list of normalized values. *)
Definition histogram_of (values : list Z) : list Z :=
  foldl count_in (replicate 256 0) values.

(** The value line 94 writes. *)
Definition binary_value (threshold_val r : Z) : Z :=
  if decide (r > threshold_val) then 255 else 0.

(** The running sum of the histogram walk after bin [i]. *)
Definition cumulative (histogram : list Z) (i : Z) : Z :=
  foldr Z.add 0 ((λ k, histogram !!! Z.to_nat k) <$> seqZ 0 (i + 1)).

(** Number of values of a list that are at most [t], and that are
    exactly 255. *)
Definition count_le (t : Z) (values : list Z) : Z :=
  Z.of_nat (length (filter (λ v, v ≤ t) values)).
Definition count_255 (values : list Z) : Z :=
  Z.of_nat (length (filter (λ v, v = 255) values)).
Definition count_eq (k : Z) (values : list Z) : Z :=
  Z.of_nat (length (filter (λ v, v = k) values)).

(** The intermediate buffers of a run, from the accumulators on. *)
Definition combined_final (p : params) (b : buffers) : list Z :=
  zip_with combined_value (h_final p b) (v_final p b).
Definition global_max_final (p : params) (b : buffers) : Z :=
  foldl raise_max 1 (combined_final p b).
Definition normalized_final (p : params) (b : buffers) : list Z :=
  normalized_value (global_max_final p b) <$> combined_final p b.
Definition histogram_final (p : params) (b : buffers) : list Z :=
  histogram_of (normalized_final p b).

(** The same call with another percentile. *)
Definition with_percentile (p : params) (q : Float32.t) : params :=
  {| rows := rows p; cols := cols p; num_angles := num_angles p;
     kernel_length := kernel_length p; margin_y := margin_y p;
     margin_x := margin_x p; threshold_percentile := q |}.

(** The normalisation pass with the two clamp statements (lines 71-72)
    removed. *)
Definition normalize_step_unclamped (h_response : list Z) (global_max : Z) (i : Z)
    (st : list Z * list Z) : option (list Z * list Z) :=
  let '(result, histogram) := st in
  hi ← load h_response i;
  normalized ← scale hi global_max;
  result ← store result i (to_uint8 normalized);
  count ← load histogram normalized;
  histogram ← store histogram normalized (count + 1);
  Some (result, histogram).

Definition normalize_unclamped (p : params) (h_response : list Z) (global_max : Z)
    (result : list Z) : option (list Z * list Z) :=
  for_range 0 (total_pixels p) (normalize_step_unclamped h_response global_max)
    (result, replicate 256 0).

(** ** Test scenarios of the specification *)

(** The [float] nearest to 0.9 (bit pattern 0x3F666666). *)
Definition percentile_09 : Float32.t := Float32.Fin 15099494 (-24).

(** Scenario B: a 3x3 image with one hot pixel in the centre. *)
Definition scenario_B_params : params :=
  {| rows := 3; cols := 3; num_angles := 1; kernel_length := 1;
     margin_y := 1; margin_x := 1; threshold_percentile := percentile_09 |}.

Definition scenario_B_buffers (result : list Z) : buffers :=
  {| gy_data := [0; 0; 0; 0; 100; 0; 0; 0; 0];
     gx_data := [0; 0; 0; 0; 50; 0; 0; 0; 0];
     result_data := result;
     h_offsets := [0];
     v_offsets := [0] |}.

(** Scenario C: two angles with two taps each; around the centre the
    first angle sums the centre and its right neighbour, the second the
    centre and its left neighbour. *)
Definition scenario_C_params : params :=
  {| rows := 3; cols := 3; num_angles := 2; kernel_length := 2;
     margin_y := 1; margin_x := 1; threshold_percentile := percentile_09 |}.

Definition scenario_C_buffers : buffers :=
  {| gy_data := [0; 0; 0; 10; 100; 30; 0; 0; 0];
     gx_data := [0; 7; 0; 0; 50; 0; 0; 9; 0];
     result_data := [0; 0; 0; 0; 0; 0; 0; 0; 0];
     h_offsets := [0; 1; 0; -1];
     v_offsets := [0; 3; 0; -3] |}.

(** An all-zero image of [r] rows and [c] columns, with one angle, one
    tap of offset 0 and a margin of one pixel. *)
Definition zero_image_params (r c : Z) (q : Float32.t) : params :=
  {| rows := r; cols := c; num_angles := 1; kernel_length := 1;
     margin_y := 1; margin_x := 1; threshold_percentile := q |}.

Definition zero_image_buffers (r c : Z) : buffers :=
  {| gy_data := replicate (Z.to_nat (r * c)) 0;
     gx_data := replicate (Z.to_nat (r * c)) 0;
     result_data := replicate (Z.to_nat (r * c)) 0;
     h_offsets := [0];
     v_offsets := [0] |}.

(** The same call with the roles of the two channels exchanged: each
    gradient image travels with its offset table. *)
Definition swap_channels (b : buffers) : buffers :=
  {| gy_data := gx_data b; gx_data := gy_data b; result_data := result_data b;
     h_offsets := v_offsets b; v_offsets := h_offsets b |}.

(** ** The JNI entry point (jni_bridge.cpp)

    [Java_com_docshot_cv_NativeAccel_nativeDirectionalGradient] obtains
    the five Java arrays with [GetPrimitiveArrayCritical], calls the
    kernel when all five pointers are non-null, and releases the arrays in
    reverse order.  The JNI contract used is the one of the JNI
    specification: [GetPrimitiveArrayCritical] yields NULL, a pointer to
    the array's own elements or a pointer to a copy;
    [ReleasePrimitiveArrayCritical] with mode 0 copies a copy back, with
    [JNI_ABORT] discards it, and the mode has no effect when the pointer
    is to the array's own elements.  The five Java arrays are distinct
    objects. *)

(** What [GetPrimitiveArrayCritical] did for one array. *)
Inductive access : Type := Unavailable | Direct | Copied.

Definition JNI_ABORT : Z := 2.

(** A [jbyte] seen through [static_cast<uint8_t*>], and back. *)
Definition as_uint8 (x : Z) : Z := x `mod` 256.
Definition as_jbyte (u : Z) : Z := if decide (u < 128) then u else u - 256.

Record java_arrays : Type := MkJava {
  j_gy : list Z;
  j_gx : list Z;
  j_result : list Z;
  j_h_offsets : list Z;
  j_v_offsets : list Z
}.

(** The outcome of the five [GetPrimitiveArrayCritical] calls. *)
Record jni_outcome : Type := MkJni {
  get_gy : access;
  get_gx : access;
  get_result : access;
  get_h_offsets : access;
  get_v_offsets : access
}.

(** The five native pointers: [None] is the null pointer, [Some m] a
    pointer to memory holding [m]. *)
Record pointers : Type := MkPointers {
  n_gy : option (list Z);
  n_gx : option (list Z);
  n_result : option (list Z);
  n_h_offsets : option (list Z);
  n_v_offsets : option (list Z)
}.

Inductive array_id : Type := GY | GX | RESULT | HOFFSETS | VOFFSETS.

(** The JNI calls the entry point makes, in order. *)
Inductive jni_call : Type :=
| GetCritical (a : array_id) (non_null : bool)
| ReleaseCritical (a : array_id) (mode : Z).

Definition get_critical (a : access) (view : list Z) : option (list Z) :=
  match a with
  | Unavailable => None
  | Direct | Copied => Some view
  end.

Definition non_null (a : access) : bool :=
  match a with Unavailable => false | Direct | Copied => true end.

(** The Java array after [if (ptr) Release(array, ptr, mode)], where
    [back] reads the native memory as Java elements. *)
Definition release_critical (a : access) (mode : Z) (back : list Z → list Z)
    (java : list Z) (ptr : option (list Z)) : list Z :=
  match ptr, a with
  | Some m, Direct => back m
  | Some m, Copied => if decide (mode = JNI_ABORT) then java else back m
  | _, _ => java
  end.

Definition release_call (a : array_id) (mode : Z) (ptr : option (list Z))
  : list jni_call :=
  match ptr with
  | Some _ => [ReleaseCritical a mode]
  | None => []
  end.

(** Lines 16-25. *)
Definition acquire (jni : jni_outcome) (j : java_arrays) : pointers :=
  {| n_gy := get_critical (get_gy jni) (as_uint8 <$> j_gy j);
     n_gx := get_critical (get_gx jni) (as_uint8 <$> j_gx j);
     n_result := get_critical (get_result jni) (as_uint8 <$> j_result j);
     n_h_offsets := get_critical (get_h_offsets jni) (j_h_offsets j);
     n_v_offsets := get_critical (get_v_offsets jni) (j_v_offsets j) |}.

(** Lines 27-36: the native memory after the guarded call. *)
Definition guarded_call (p : params) (hp : heap) (n : pointers) : option pointers :=
  match n_gy n, n_gx n, n_result n, n_h_offsets n, n_v_offsets n with
  | Some gy, Some gx, Some r, Some h, Some v =>
      b' ← directional_gradient_accumulate p (MkBuffers gy gx r h v) hp;
      Some {| n_gy := Some (gy_data b'); n_gx := Some (gx_data b');
              n_result := Some (result_data b');
              n_h_offsets := Some (h_offsets b');
              n_v_offsets := Some (v_offsets b') |}
  | _, _, _, _, _ => Some n
  end.

(** Lines 38-43. *)
Definition release_all (jni : jni_outcome) (j : java_arrays) (n : pointers)
  : java_arrays :=
  let v' := release_critical (get_v_offsets jni) JNI_ABORT id
              (j_v_offsets j) (n_v_offsets n) in
  let h' := release_critical (get_h_offsets jni) JNI_ABORT id
              (j_h_offsets j) (n_h_offsets n) in
  let r' := release_critical (get_result jni) 0 (fmap as_jbyte)
              (j_result j) (n_result n) in
  let gx' := release_critical (get_gx jni) JNI_ABORT (fmap as_jbyte)
               (j_gx j) (n_gx n) in
  let gy' := release_critical (get_gy jni) JNI_ABORT (fmap as_jbyte)
               (j_gy j) (n_gy n) in
  {| j_gy := gy'; j_gx := gx'; j_result := r';
     j_h_offsets := h'; j_v_offsets := v' |}.

Definition jni_calls (jni : jni_outcome) (n : pointers) : list jni_call :=
  [GetCritical GY (non_null (get_gy jni));
   GetCritical GX (non_null (get_gx jni));
   GetCritical RESULT (non_null (get_result jni));
   GetCritical HOFFSETS (non_null (get_h_offsets jni));
   GetCritical VOFFSETS (non_null (get_v_offsets jni))]
  ++ release_call VOFFSETS JNI_ABORT (n_v_offsets n)
  ++ release_call HOFFSETS JNI_ABORT (n_h_offsets n)
  ++ release_call RESULT 0 (n_result n)
  ++ release_call GX JNI_ABORT (n_gx n)
  ++ release_call GY JNI_ABORT (n_gy n).

(** The entry point: the Java arrays on return and the JNI calls made. *)
Definition nativeDirectionalGradient (jni : jni_outcome) (hp : heap) (p : params)
    (j : java_arrays) : option (java_arrays * list jni_call) :=
  let n := acquire jni j in
  n' ← guarded_call p hp n;
  Some (release_all jni j n', jni_calls jni n').

(** The buffers the kernel sees when every array is available. *)
Definition native_view (j : java_arrays) : buffers :=
  {| gy_data := as_uint8 <$> j_gy j; gx_data := as_uint8 <$> j_gx j;
     result_data := as_uint8 <$> j_result j;
     h_offsets := j_h_offsets j; v_offsets := j_v_offsets j |}.

Definition all_available (jni : jni_outcome) : bool :=
  non_null (get_gy jni) && non_null (get_gx jni) && non_null (get_result jni)
  && non_null (get_h_offsets jni) && non_null (get_v_offsets jni).

(** The arrays acquired, in order, and the arrays released, in order. *)
Definition acquired_ids (calls : list jni_call) : list array_id :=
  omap (λ c, match c with GetCritical a true => Some a | _ => None end) calls.
Definition released_ids (calls : list jni_call) : list array_id :=
  omap (λ c, match c with ReleaseCritical a _ => Some a | _ => None end) calls.

(** * Properties *)

(** ** Buffers and loops *)

Lemma load_in_range (buf : list Z) (i : Z) :
  0 ≤ i < Z.of_nat (length buf) → load buf i = Some (buf !!! Z.to_nat i).
Proof.
  intros Hi. unfold load. rewrite decide_True by lia.
  apply list_lookup_lookup_total_lt. lia.
Qed.

Lemma store_in_range (buf : list Z) (i v : Z) :
  0 ≤ i < Z.of_nat (length buf) → store buf i v = Some (<[Z.to_nat i := v]> buf).
Proof. intros Hi. unfold store. by rewrite decide_True. Qed.

Lemma iterate_app {St : Type} (body : Z → St → option St) (l1 l2 : list Z) (s : St) :
  iterate body (l1 ++ l2) s = iterate body l1 s ≫= iterate body l2.
Proof.
  revert s. induction l1 as [|i l1 IH]; intros s; simpl; [done|].
  destruct (body i s) as [s'|]; simpl; [apply IH | done].
Qed.

(** A loop whose body never fails on states satisfying an invariant is
    the left fold of the body's effect. *)
Lemma iterate_foldl {St : Type} (I : St → Prop) (f : St → Z → St)
    (body : Z → St → option St) (l : list Z) (s : St) :
  (∀ i s, i ∈ l → I s → body i s = Some (f s i) ∧ I (f s i)) →
  I s →
  iterate body l s = Some (foldl f s l) ∧ I (foldl f s l).
Proof.
  revert s. induction l as [|i l IH]; intros s Hbody Hs; simpl; [done|].
  destruct (Hbody i s) as [-> Hs']; [left | done |]. simpl.
  apply IH; [|done]. intros j s' Hj. apply Hbody. by right.
Qed.

(** Hoare rule for [for (i = lo; i < hi; i++)]. *)
Lemma for_range_invariant {St : Type} (I : Z → St → Prop) (lo hi : Z)
    (body : Z → St → option St) (s : St) :
  lo ≤ hi →
  I lo s →
  (∀ i s, lo ≤ i < hi → I i s → ∃ s', body i s = Some s' ∧ I (i + 1) s') →
  ∃ s', for_range lo hi body s = Some s' ∧ I hi s'.
Proof.
  intros Hle Hs Hbody. unfold for_range.
  assert (Hn : ∃ n : nat, hi - lo = Z.of_nat n) by (exists (Z.to_nat (hi - lo)); lia).
  destruct Hn as [n Hn]. rewrite Hn.
  replace hi with (lo + Z.of_nat n) in Hbody |- * by lia. clear Hn Hle hi.
  induction n as [|n IH].
  - exists s. split; [done|]. by replace (lo + Z.of_nat 0) with lo by lia.
  - destruct IH as (s1 & Hrun & Hs1).
    { intros i s0 Hi. apply Hbody. lia. }
    destruct (Hbody (lo + Z.of_nat n) s1) as (s2 & Hb & Hs2); [lia | done |].
    exists s2. rewrite seqZ_S, iterate_app, Hrun. simpl. rewrite Hb. split; [done|].
    by replace (lo + Z.of_nat (S n)) with (lo + Z.of_nat n + 1) by lia.
Qed.

Lemma for_range_empty {St : Type} (lo hi : Z) (body : Z → St → option St) (s : St) :
  hi ≤ lo → for_range lo hi body s = Some s.
Proof. intros H. unfold for_range. by rewrite seqZ_nil by lia. Qed.

(** ** The accumulator *)

Lemma wrap_int32_small (z : Z) : - 2 ^ 31 ≤ z < 2 ^ 31 → wrap_int32 z = z.
Proof. intros Hz. unfold wrap_int32. rewrite Z.mod_small; lia. Qed.

Lemma raise_length (h : list Z) (us : list (Z * Z)) :
  length (foldl raise h us) = length h.
Proof.
  revert h. induction us as [|u us IH]; intros h; simpl; [done|].
  rewrite IH. apply length_alter.
Qed.

Lemma alter_as_insert (f : Z → Z) (l : list Z) (i : nat) :
  (i < length l)%nat → alter f i l = <[i := f (l !!! i)]> l.
Proof.
  intros Hi. apply list_eq. intros j.
  rewrite list_lookup_alter, list_lookup_insert.
  destruct (decide (i = j)) as [->|Hne].
  - rewrite decide_True by done.
    rewrite (list_lookup_lookup_total_lt l j); done.
  - rewrite decide_False; [done | by intros [? _]].
Qed.

(** Lines 49-50 are the update [raise]. *)
Lemma conditional_store_raise (h : list Z) (i s : Z) :
  0 ≤ i < Z.of_nat (length h) →
  (if decide (s > h !!! Z.to_nat i) then store h i s else Some h)
  = Some (raise h (i, s)).
Proof.
  intros Hi. unfold raise; simpl. rewrite alter_as_insert by lia. case_decide.
  - rewrite store_in_range by done. do 2 f_equal. lia.
  - f_equal. symmetry. apply list_insert_id.
    rewrite (list_lookup_lookup_total_lt h (Z.to_nat i)) by lia. f_equal. lia.
Qed.

Lemma foldl_pair {A B C : Type} (f : A → C → A) (g : B → C → B) (l : list C)
    (a : A) (c : B) :
  foldl (λ s k, (f s.1 k, g s.2 k)) (a, c) l = (foldl f a l, foldl g c l).
Proof. revert a c. induction l as [|k l IH]; intros a c; simpl; [done | apply IH]. Qed.

Section Accumulator.
Context (p : params) (b : buffers) (Hvalid : valid_input p b).

Lemma interior_index (y x : Z) :
  interior p y x → 0 ≤ y * cols p + x < total_pixels p.
Proof.
  destruct Hvalid. unfold interior, total_pixels. intros [Hy Hx]. nia.
Qed.

Lemma offset_index (a k : Z) :
  0 ≤ a < num_angles p → 0 ≤ k < kernel_length p →
  0 ≤ a * kernel_length p + k < num_angles p * kernel_length p.
Proof. intros Ha Hk. nia. Qed.

(** The [k] loop computes the two tap sums. *)
Lemma taps_run (a y x : Z) :
  0 ≤ a < num_angles p → interior p y x →
  for_range 0 (kernel_length p) (tap_step p b a (y * cols p + x)) (0, 0)
  = Some (tap_sum (kernel_length p) (h_offsets b) (gy_data b) a (y * cols p + x),
          tap_sum (kernel_length p) (v_offsets b) (gx_data b) a (y * cols p + x)).
Proof.
  intros Ha Hyx. unfold for_range, tap_sum. rewrite Z.sub_0_r.
  set (fh := λ sum k, wrap_int32 (sum + gy_data b !!! Z.to_nat
               (y * cols p + x + h_offsets b !!! Z.to_nat (a * kernel_length p + k)))).
  set (fv := λ sum k, wrap_int32 (sum + gx_data b !!! Z.to_nat
               (y * cols p + x + v_offsets b !!! Z.to_nat (a * kernel_length p + k)))).
  destruct (iterate_foldl (λ _, True) (λ s k, (fh s.1 k, fv s.2 k))
              (tap_step p b a (y * cols p + x)) (seqZ 0 (kernel_length p)) (0, 0))
    as [-> _]; [|done|].
  - intros k [sh sv] Hk _. split; [|done]. apply elem_of_seqZ in Hk.
    unfold tap_step. pose proof (offset_index a k Ha ltac:(lia)) as Hoff.
    destruct Hvalid.
    rewrite (load_in_range (h_offsets b)) by lia. simpl.
    rewrite (load_in_range (gy_data b))
      by (rewrite vi_gy_len0; apply vi_h_bounds0; [done | lia | done]). simpl.
    rewrite (load_in_range (v_offsets b)) by lia. simpl.
    rewrite (load_in_range (gx_data b))
      by (rewrite vi_gx_len0; apply vi_v_bounds0; [done | lia | done]). simpl.
    done.
  - f_equal. apply foldl_pair.
Qed.

(** One pixel visit raises both accumulators at its index. *)
Lemma pixel_run (a y x : Z) (h v : list Z) :
  0 ≤ a < num_angles p → interior p y x →
  Z.of_nat (length h) = total_pixels p → Z.of_nat (length v) = total_pixels p →
  pixel_step p b a y x (h, v)
  = Some (raise h (y * cols p + x,
                   tap_sum (kernel_length p) (h_offsets b) (gy_data b) a (y * cols p + x)),
          raise v (y * cols p + x,
                   tap_sum (kernel_length p) (v_offsets b) (gx_data b) a (y * cols p + x))).
Proof.
  intros Ha Hyx Hh Hv. unfold pixel_step. rewrite taps_run by done. simpl.
  pose proof (interior_index y x Hyx) as Hidx.
  pose proof (conditional_store_raise h (y * cols p + x)
    (tap_sum (kernel_length p) (h_offsets b) (gy_data b) a (y * cols p + x))
    ltac:(lia)) as Eh.
  pose proof (conditional_store_raise v (y * cols p + x)
    (tap_sum (kernel_length p) (v_offsets b) (gx_data b) a (y * cols p + x))
    ltac:(lia)) as Ev.
  rewrite (load_in_range h), (load_in_range v) by lia.
  cbn [mbind option_bind]. rewrite Eh. cbn [mbind option_bind]. by rewrite Ev.
Qed.

(** A loop whose iterations apply lists of updates applies their
    concatenation. *)
Lemma iterate_raise (body : Z → list Z * list Z → option (list Z * list Z))
    (l : list Z) (uh uv : Z → list (Z * Z)) :
  (∀ i h v, i ∈ l →
     Z.of_nat (length h) = total_pixels p → Z.of_nat (length v) = total_pixels p →
     body i (h, v) = Some (foldl raise h (uh i), foldl raise v (uv i))) →
  ∀ h v,
    Z.of_nat (length h) = total_pixels p → Z.of_nat (length v) = total_pixels p →
    iterate body l (h, v) = Some (foldl raise h (l ≫= uh), foldl raise v (l ≫= uv)).
Proof.
  induction l as [|i l IH]; intros Hbody h v Hh Hv; simpl; [done|].
  rewrite Hbody by (done || left). simpl. rewrite !foldl_app.
  apply IH; [|by rewrite raise_length..].
  intros j h' v' Hj. apply Hbody. by right.
Qed.

(** The accumulation, for any list of valid angle indices, applies the
    updates of these angles in order. *)
Lemma accumulate_angles_run (angles : list Z) (h v : list Z) :
  (∀ a, a ∈ angles → 0 ≤ a < num_angles p) →
  Z.of_nat (length h) = total_pixels p → Z.of_nat (length v) = total_pixels p →
  accumulate_angles p b angles (h, v)
  = Some (foldl raise h (updates p (h_offsets b) (gy_data b) angles),
          foldl raise v (updates p (v_offsets b) (gx_data b) angles)).
Proof.
  intros Hangles. unfold accumulate_angles, updates.
  apply iterate_raise. intros a h' v' Ha. 
  specialize (Hangles a Ha).
  unfold angle_step, for_range.
  apply iterate_raise. intros y h'' v'' Hy. apply elem_of_seqZ in Hy.
  unfold row_step, for_range.
  apply (iterate_raise (pixel_step p b a y) _
    (λ x, [(y * cols p + x,
            tap_sum (kernel_length p) (h_offsets b) (gy_data b) a (y * cols p + x))])
    (λ x, [(y * cols p + x,
            tap_sum (kernel_length p) (v_offsets b) (gx_data b) a (y * cols p + x))])).
  intros x h3 v3 Hx Hh3 Hv3. apply elem_of_seqZ in Hx. simpl.
  apply pixel_run; [done | split; lia | done | done].
Qed.

End Accumulator.

(** *** What a list of updates leaves at one index *)

Lemma raise_lookup (us : list (Z * Z)) (h : list Z) (j : Z) :
  0 ≤ j < Z.of_nat (length h) →
  (∀ u, u ∈ us → 0 ≤ u.1) →
  foldl raise h us !!! Z.to_nat j = best j us (h !!! Z.to_nat j).
Proof.
  revert h. induction us as [|u us IH]; intros h Hj Hus; simpl; [done|].
  assert (0 ≤ u.1) as Hu by (apply Hus; left).
  rewrite IH; [|unfold raise; rewrite length_alter; lia|intros; apply Hus; by right].
  f_equal. unfold raise. rewrite list_lookup_total_alter.
  destruct (decide (u.1 = j)) as [->|Hne].
  - by rewrite decide_True by (split; [done | lia]).
  - rewrite decide_False; [done | intros [? _]; lia].
Qed.

Lemma best_ge_start (j : Z) (us : list (Z * Z)) (m : Z) : m ≤ best j us m.
Proof.
  revert m. induction us as [|u us IH]; intros m; simpl; [done|].
  etrans; [|apply IH]. case_decide; lia.
Qed.

Lemma best_ge (j s : Z) (us : list (Z * Z)) (m : Z) :
  (j, s) ∈ us → s ≤ best j us m.
Proof.
  revert m. induction us as [|u us IH]; intros m Hin; [by apply elem_of_nil in Hin|].
  apply elem_of_cons in Hin as [<-|Hin]; simpl.
  - rewrite decide_True by done. etrans; [|apply best_ge_start]. lia.
  - by apply IH.
Qed.

Lemma best_attained (j : Z) (us : list (Z * Z)) (m : Z) :
  best j us m = m ∨ ∃ s, (j, s) ∈ us ∧ best j us m = s.
Proof.
  revert m. induction us as [|u us IH]; intros m; simpl; [by left|].
  destruct (IH (if decide (u.1 = j) then Z.max u.2 m else m)) as [E|(s & Hs & E)].
  - rewrite E. case_decide as Hu; [|by left].
    destruct (Z.max_spec u.2 m) as [[_ ->]|[_ ->]]; [by left|].
    right. exists u.2. split; [|done]. destruct u; simpl in *; subst. left.
  - right. exists s. split; [by right | done].
Qed.

Lemma best_absent (j : Z) (us : list (Z * Z)) (m : Z) :
  (∀ u, u ∈ us → u.1 ≠ j) → best j us m = m.
Proof.
  revert m. induction us as [|u us IH]; intros m Hus; simpl; [done|].
  rewrite decide_False by (apply Hus; left). apply IH. intros; apply Hus; by right.
Qed.

(** Two updates commute: [max] is commutative and associative. *)
Lemma raise_comm (h : list Z) (u1 u2 : Z * Z) :
  raise (raise h u1) u2 = raise (raise h u2) u1.
Proof.
  unfold raise. rewrite list_alter_alter. case_decide as Heq; [|done].
  rewrite Heq, list_alter_alter_eq. apply list_alter_ext; [|done..].
  intros x _. simpl. lia.
Qed.

(** The order of the updates is irrelevant. *)
Lemma raise_permutation (us1 us2 : list (Z * Z)) (h : list Z) :
  us1 ≡ₚ us2 → foldl raise h us1 = foldl raise h us2.
Proof.
  intros Hperm. revert h.
  induction Hperm as [|u us1 us2 _ IH|u1 u2 us|us1 us2 us3 _ IH1 _ IH2];
    intros h; simpl.
  - done.
  - apply IH.
  - by rewrite raise_comm.
  - by rewrite IH1.
Qed.

Lemma elem_of_updates (p : params) (offs data angles : list Z) (j s : Z) :
  (j, s) ∈ updates p offs data angles ↔
  ∃ a y x, a ∈ angles ∧ interior p y x ∧ j = y * cols p + x
           ∧ s = tap_sum (kernel_length p) offs data a j.
Proof.
  unfold updates, interior. split.
  - intros (a & Hjs & Ha)%list_elem_of_bind.
    apply list_elem_of_bind in Hjs as (y & Hjs & Hy).
    apply list_elem_of_bind in Hjs as (x & Hjs & Hx).
    apply list_elem_of_singleton in Hjs. injection Hjs as -> ->.
    apply elem_of_seqZ in Hy, Hx. exists a, y, x. repeat split; (done || lia).
  - intros (a & y & x & Ha & [Hy Hx] & -> & ->).
    apply list_elem_of_bind. exists a. split; [|done].
    apply list_elem_of_bind. exists y. split; [|apply elem_of_seqZ; lia].
    apply list_elem_of_bind. exists x. split; [|apply elem_of_seqZ; lia].
    apply list_elem_of_singleton. done.
Qed.

(** Without overflow the wrapped accumulation is the plain sum. *)
Lemma wrapped_sum_plain (g : Z → Z) (ks : list Z) (s0 : Z) :
  (∀ k, k ∈ ks → 0 ≤ g k < 256) →
  0 ≤ s0 → s0 + 255 * Z.of_nat (length ks) < 2 ^ 31 →
  foldl (λ sum k, wrap_int32 (sum + g k)) s0 ks = s0 + foldr Z.add 0 (g <$> ks)
  ∧ 0 ≤ foldr Z.add 0 (g <$> ks).
Proof.
  revert s0. induction ks as [|k ks IH]; intros s0 Hg Hs0 Hbound; csimpl.
  - split; lia.
  - assert (0 ≤ g k < 256) as Hk by (apply Hg; left). simpl in Hbound.
    rewrite wrap_int32_small by lia.
    destruct (IH (s0 + g k)) as [-> Hnn]; [intros; apply Hg; by right | lia | lia |].
    split; lia.
Qed.

Lemma calloc_length (n : Z) : 0 ≤ n → Z.of_nat (length (calloc n)) = n.
Proof. intros Hn. unfold calloc. rewrite length_replicate. lia. Qed.

Lemma calloc_lookup (n i : Z) : 0 ≤ i < n → calloc n !!! Z.to_nat i = 0.
Proof. intros Hi. unfold calloc. apply lookup_total_replicate_2. lia. Qed.

Section AccumulatorResult.
Context (p : params) (b : buffers) (Hvalid : valid_input p b).

Lemma total_pixels_nonneg : 0 ≤ total_pixels p.
Proof. destruct Hvalid. unfold total_pixels. nia. Qed.

Lemma accumulate_run : accumulate p b = Some (h_final p b, v_final p b).
Proof.
  unfold accumulate, for_range. rewrite Z.sub_0_r.
  apply (accumulate_angles_run p b Hvalid).
  - intros a Ha%elem_of_seqZ. lia.
  - apply calloc_length, total_pixels_nonneg.
  - apply calloc_length, total_pixels_nonneg.
Qed.

Lemma accumulated_lookup (offs data angles : list Z) (j : Z) :
  0 ≤ j < total_pixels p →
  foldl raise (calloc (total_pixels p)) (updates p offs data angles) !!! Z.to_nat j
  = best j (updates p offs data angles) 0.
Proof.
  intros Hj. rewrite raise_lookup.
  - by rewrite calloc_lookup.
  - rewrite calloc_length; [done | apply total_pixels_nonneg].
  - intros [i s] (a & y & x & _ & Hyx & -> & _)%elem_of_updates. simpl.
    by apply (interior_index p b Hvalid).
Qed.

(** With sums that fit 32 bits, the loop's sum is the plain sum of the
    samples, for either channel. *)
Lemma tap_sum_plain (offs data : list Z) (a y x : Z) :
  offsets_in_bounds p offs →
  Z.of_nat (length data) = total_pixels p →
  Forall (λ s, 0 ≤ s < 256) data →
  255 * kernel_length p < 2 ^ 31 →
  0 ≤ a < num_angles p → interior p y x →
  tap_sum (kernel_length p) offs data a (y * cols p + x)
  = kernel_sum (kernel_length p) offs data a (y * cols p + x)
  ∧ 0 ≤ kernel_sum (kernel_length p) offs data a (y * cols p + x).
Proof.
  intros Hoffs Hlen Hbytes Hfit Ha Hyx. unfold tap_sum, kernel_sum.
  destruct (wrapped_sum_plain
    (λ k, data !!! Z.to_nat (y * cols p + x + offs !!! Z.to_nat (a * kernel_length p + k)))
    (seqZ 0 (kernel_length p)) 0) as [E Hnn]; [| done | | by rewrite E, Z.add_0_l].
  - intros k Hk%elem_of_seqZ. apply (Forall_lookup_total_1 (λ s, 0 ≤ s < 256) data); [done|].
    specialize (Hoffs a k y x Ha ltac:(lia) Hyx). lia.
  - rewrite length_seqZ. destruct Hvalid. lia.
Qed.

End AccumulatorResult.

(** C2. After the accumulation stage, at every interior pixel each
    accumulator holds the maximum, over the angle indices, of that angle's
    kernel-tap sum (it bounds every per-angle sum and, when there is an
    angle, it is one of them), and evaluating the angles in any order
    yields the same two buffers.  The sums are those of the unsigned
    samples, for kernels whose sums fit the 32-bit accumulator. *)
Theorem accumulate_max_over_angles (p : params) (b : buffers) :
  valid_input p b →
  255 * kernel_length p < 2 ^ 31 →
  ∃ h v,
    accumulate p b = Some (h, v)
    ∧ (∀ y x, interior p y x →
         let j := y * cols p + x in
         let sum_h := λ a, kernel_sum (kernel_length p) (h_offsets b) (gy_data b) a j in
         let sum_v := λ a, kernel_sum (kernel_length p) (v_offsets b) (gx_data b) a j in
         (∀ a, 0 ≤ a < num_angles p →
            sum_h a ≤ h !!! Z.to_nat j ∧ sum_v a ≤ v !!! Z.to_nat j)
         ∧ (0 < num_angles p →
            (∃ a, 0 ≤ a < num_angles p ∧ h !!! Z.to_nat j = sum_h a)
            ∧ (∃ a, 0 ≤ a < num_angles p ∧ v !!! Z.to_nat j = sum_v a)))
    ∧ (∀ angles, angles ≡ₚ seqZ 0 (num_angles p) →
         accumulate_angles p b angles
           (calloc (total_pixels p), calloc (total_pixels p)) = Some (h, v)).
Proof.
  intros Hvalid Hfit. exists (h_final p b), (v_final p b).
  split; [by apply accumulate_run|]. split.
  - intros y x Hyx j sum_h sum_v.
    pose proof (interior_index p b Hvalid y x Hyx) as Hj. fold j in Hj.
    assert (Hchan : ∀ offs data,
      offsets_in_bounds p offs → Z.of_nat (length data) = total_pixels p →
      Forall (λ s, 0 ≤ s < 256) data →
      let H := foldl raise (calloc (total_pixels p))
                 (updates p offs data (seqZ 0 (num_angles p))) in
      (∀ a, 0 ≤ a < num_angles p →
         kernel_sum (kernel_length p) offs data a j ≤ H !!! Z.to_nat j)
      ∧ (0 < num_angles p →
         ∃ a, 0 ≤ a < num_angles p
              ∧ H !!! Z.to_nat j = kernel_sum (kernel_length p) offs data a j)).
    { intros offs data Hoffs Hlen Hbytes H. subst H.
      rewrite (accumulated_lookup p b Hvalid) by done.
      assert (Hplain : ∀ a, 0 ≤ a < num_angles p →
        tap_sum (kernel_length p) offs data a j
        = kernel_sum (kernel_length p) offs data a j
        ∧ 0 ≤ kernel_sum (kernel_length p) offs data a j)
        by (intros a Ha; by apply (tap_sum_plain p b Hvalid)).
      split.
      - intros a Ha. destruct (Hplain a Ha) as [<- _]. apply best_ge.
        apply elem_of_updates. exists a, y, x.
        split; [apply elem_of_seqZ; lia | done].
      - intros Hpos.
        destruct (best_attained j (updates p offs data (seqZ 0 (num_angles p))) 0)
          as [E|(s & (a & y' & x' & Ha & _ & _ & ->)%elem_of_updates & E)].
        + exists 0. split; [lia|]. destruct (Hplain 0 ltac:(lia)) as [E0 Hnn].
          pose proof (best_ge j (tap_sum (kernel_length p) offs data 0 j)
            (updates p offs data (seqZ 0 (num_angles p))) 0) as Hge.
          rewrite E in Hge |- *. rewrite E0 in Hge.
          apply Z.le_antisymm; [done|]. apply Hge.
          apply elem_of_updates. exists 0, y, x.
          split; [apply elem_of_seqZ; lia | done].
        + apply elem_of_seqZ in Ha. exists a. split; [lia|].
          rewrite E. apply Hplain. lia. }
    destruct Hvalid.
    destruct (Hchan (h_offsets b) (gy_data b)) as [Hh1 Hh2]; [done..|].
    destruct (Hchan (v_offsets b) (gx_data b)) as [Hv1 Hv2]; [done..|].
    split; [intros a Ha; split; [by apply Hh1 | by apply Hv1]|].
    intros Hpos. split; [by apply Hh2 | by apply Hv2].
  - intros angles Hperm.
    rewrite (accumulate_angles_run p b Hvalid).
    + unfold h_final, v_final, updates. f_equal.
      f_equal; apply raise_permutation; by rewrite Hperm.
    + intros a Ha. rewrite Hperm in Ha. apply elem_of_seqZ in Ha. lia.
    + apply calloc_length, (total_pixels_nonneg p b Hvalid).
    + apply calloc_length, (total_pixels_nonneg p b Hvalid).
Qed.

(** ** In-place passes over the pixel grid *)

Lemma inplace_lookup (T h : list Z) (k : nat) :
  length T = length h → (take k T ++ drop k h) !! k = h !! k.
Proof.
  intros Hlen. destruct (decide (k ≤ length T)%nat) as [Hk|Hk].
  - rewrite lookup_app_r by (rewrite length_take; lia).
    rewrite length_take, lookup_drop. f_equal. lia.
  - rewrite take_ge, drop_ge, app_nil_r by lia.
    rewrite !lookup_ge_None_2; [done | lia..].
Qed.

Lemma inplace_length (T h : list Z) (k : nat) :
  length T = length h → length (take k T ++ drop k h) = length h.
Proof. intros Hlen. rewrite length_app, length_take, length_drop. lia. Qed.

Lemma inplace_insert (T h : list Z) (k : nat) (x : Z) :
  length T = length h → T !! k = Some x →
  <[k := x]> (take k T ++ drop k h) = take (S k) T ++ drop (S k) h.
Proof.
  intros Hlen Hx. pose proof (lookup_lt_Some _ _ _ Hx) as Hk.
  rewrite insert_app_r_alt by (rewrite length_take; lia).
  rewrite length_take, (take_S_r T k x) by done.
  replace (k - k `min` length T)%nat with 0%nat by lia.
  destruct (drop k h) as [|y rest] eqn:E.
  - apply (f_equal length) in E. rewrite length_drop in E. simpl in E. lia.
  - simpl. rewrite <- app_assoc. simpl. do 2 f_equal.
    replace (S k) with (k + 1)%nat by lia. by rewrite <- drop_drop, E.
Qed.

(** A pass that rewrites a buffer from left to right while threading a
    summary [aux] of the part already written. *)
Lemma inplace_loop {A : Type} (T h : list Z) (aux : list Z → A)
    (body : Z → list Z * A → option (list Z * A)) (n : Z) :
  Z.of_nat (length T) = n → Z.of_nat (length h) = n →
  (∀ k : nat, Z.of_nat k < n →
     body (Z.of_nat k) (take k T ++ drop k h, aux (take k T))
     = Some (take (S k) T ++ drop (S k) h, aux (take (S k) T))) →
  for_range 0 n body (h, aux []) = Some (T, aux T).
Proof.
  intros HT Hh Hbody.
  destruct (for_range_invariant
    (λ i st, st = (take (Z.to_nat i) T ++ drop (Z.to_nat i) h, aux (take (Z.to_nat i) T)))
    0 n body (h, aux [])) as (st & -> & ->); [lia | done | |].
  - intros i st Hi ->. eexists. split; [|done].
    replace i with (Z.of_nat (Z.to_nat i)) at 1 by lia.
    rewrite Hbody by lia. by replace (Z.to_nat (i + 1)) with (S (Z.to_nat i)) by lia.
  - by rewrite take_ge, drop_ge, app_nil_r by lia.
Qed.

Lemma inplace_map (T h : list Z) (body : Z → list Z → option (list Z)) (n : Z) :
  Z.of_nat (length T) = n → Z.of_nat (length h) = n →
  (∀ k : nat, Z.of_nat k < n →
     body (Z.of_nat k) (take k T ++ drop k h) = Some (take (S k) T ++ drop (S k) h)) →
  for_range 0 n body h = Some T.
Proof.
  intros HT Hh Hbody.
  destruct (for_range_invariant
    (λ i st, st = take (Z.to_nat i) T ++ drop (Z.to_nat i) h)
    0 n body h) as (st & -> & ->); [lia | done | |].
  - intros i st Hi ->. eexists. split; [|done].
    replace i with (Z.of_nat (Z.to_nat i)) at 1 by lia.
    rewrite Hbody by lia. by replace (Z.to_nat (i + 1)) with (S (Z.to_nat i)) by lia.
  - by rewrite take_ge, drop_ge, app_nil_r by lia.
Qed.

Lemma load_inplace (T h : list Z) (k : nat) :
  length T = length h → (k < length h)%nat →
  load (take k T ++ drop k h) (Z.of_nat k) = Some (h !!! k).
Proof.
  intros Hlen Hk. unfold load. rewrite decide_True by lia.
  rewrite Nat2Z.id, inplace_lookup by done. by apply list_lookup_lookup_total_lt.
Qed.

Lemma store_inplace (T h : list Z) (k : nat) (x : Z) :
  length T = length h → T !! k = Some x →
  store (take k T ++ drop k h) (Z.of_nat k) x = Some (take (S k) T ++ drop (S k) h).
Proof.
  intros Hlen Hx. pose proof (lookup_lt_Some _ _ _ Hx) as Hk.
  rewrite store_in_range by (rewrite inplace_length by done; lia).
  by rewrite Nat2Z.id, inplace_insert.
Qed.

(** ** Combining, normalising, binarising *)

Lemma clamp_range (z : Z) : 0 ≤ clamp z ≤ 255.
Proof. unfold clamp. repeat case_decide; lia. Qed.

Lemma clamp_id (z : Z) : 0 ≤ z ≤ 255 → clamp z = z.
Proof. intros Hz. unfold clamp. repeat case_decide; lia. Qed.

Lemma count_in_length (hist : list Z) (v : Z) :
  length (count_in hist v) = length hist.
Proof. unfold count_in. apply length_insert. Qed.

Lemma histogram_of_length (values : list Z) : length (histogram_of values) = 256%nat.
Proof.
  unfold histogram_of. generalize (eq_refl (length (replicate 256 0))).
  generalize (replicate 256 0) at 1 3. intros hist Hlen.
  revert hist Hlen. induction values as [|v values IH]; intros hist Hlen; simpl.
  - by rewrite Hlen, length_replicate.
  - apply IH. by rewrite count_in_length.
Qed.

Lemma histogram_of_snoc (values : list Z) (v : Z) :
  histogram_of (values ++ [v]) = count_in (histogram_of values) v.
Proof. unfold histogram_of. by rewrite foldl_app. Qed.

Section Passes.
Context (p : params).

Lemma combine_run (h v : list Z) :
  Z.of_nat (length h) = total_pixels p → Z.of_nat (length v) = total_pixels p →
  combine p h v
  = Some (zip_with combined_value h v,
          foldl raise_max 1 (zip_with combined_value h v)).
Proof.
  intros Hh Hv. unfold combine.
  apply (inplace_loop (zip_with combined_value h v) h (foldl raise_max 1));
    [rewrite length_zip_with; lia | done |].
  intros k Hk. unfold combine_step.
  assert (HT : length (zip_with combined_value h v) = length h)
    by (rewrite length_zip_with; lia).
  assert (Hx : zip_with combined_value h v !! k
               = Some (combined_value (h !!! k) (v !!! k))).
  { rewrite lookup_zip_with.
    rewrite (list_lookup_lookup_total_lt h k), (list_lookup_lookup_total_lt v k) by lia.
    done. }
  rewrite load_inplace by (done || lia). cbn [mbind option_bind].
  rewrite (load_in_range v) by lia. cbn [mbind option_bind].
  rewrite Nat2Z.id. fold (combined_value (h !!! k) (v !!! k)).
  rewrite (store_inplace _ _ _ _ HT Hx). cbn [mbind option_bind].
  rewrite (take_S_r _ _ _ Hx), foldl_app. done.
Qed.

Lemma normalize_run (combined : list Z) (global_max : Z) (result : list Z) :
  Z.of_nat (length combined) = total_pixels p →
  Z.of_nat (length result) = total_pixels p →
  global_max ≠ 0 →
  normalize p combined global_max result
  = Some (normalized_value global_max <$> combined,
          histogram_of (normalized_value global_max <$> combined)).
Proof.
  intros Hc Hr Hg. unfold normalize.
  apply (inplace_loop (normalized_value global_max <$> combined) result histogram_of);
    [rewrite length_fmap; lia | done |].
  intros k Hk. unfold normalize_step.
  assert (HT : length (normalized_value global_max <$> combined) = length result)
    by (rewrite length_fmap; lia).
  assert (Hx : (normalized_value global_max <$> combined) !! k
               = Some (normalized_value global_max (combined !!! k))).
  { rewrite list_lookup_fmap, (list_lookup_lookup_total_lt combined k) by lia. done. }
  rewrite (load_in_range combined) by lia. cbn [mbind option_bind].
  unfold scale. rewrite decide_False by done. cbn [mbind option_bind].
  rewrite Nat2Z.id. fold (normalized_value global_max (combined !!! k)).
  pose proof (clamp_range (wrap_int32 ((combined !!! k * 255) `quot` global_max)))
    as Hrange. fold (normalized_value global_max (combined !!! k)) in Hrange.
  unfold to_uint8. rewrite Z.mod_small by lia.
  rewrite (store_inplace _ _ _ _ HT Hx). cbn [mbind option_bind].
  rewrite load_in_range by (rewrite histogram_of_length; lia).
  cbn [mbind option_bind].
  rewrite store_in_range by (rewrite histogram_of_length; lia).
  cbn [mbind option_bind].
  by rewrite (take_S_r _ _ _ Hx), histogram_of_snoc.
Qed.

Lemma binarize_run (threshold_val : Z) (normalized : list Z) :
  Z.of_nat (length normalized) = total_pixels p →
  binarize p threshold_val normalized
  = Some (binary_value threshold_val <$> normalized).
Proof.
  intros Hn. unfold binarize.
  apply (inplace_map (binary_value threshold_val <$> normalized) normalized);
    [rewrite length_fmap; lia | done |].
  intros k Hk. unfold binarize_step.
  assert (HT : length (binary_value threshold_val <$> normalized) = length normalized)
    by (rewrite length_fmap; lia).
  assert (Hx : (binary_value threshold_val <$> normalized) !! k
               = Some (binary_value threshold_val (normalized !!! k))).
  { rewrite list_lookup_fmap, (list_lookup_lookup_total_lt normalized k) by lia. done. }
  rewrite load_inplace by (done || lia). cbn [mbind option_bind].
  apply (store_inplace _ _ _ _ HT Hx).
Qed.

End Passes.

(** ** The whole run *)

Lemma raise_max_foldl (l : list Z) (g : Z) :
  g ≤ foldl raise_max g l ∧ Forall (λ c, c ≤ foldl raise_max g l) l.
Proof.
  revert g. induction l as [|c l IH]; intros g; simpl; [by split|].
  destruct (IH (raise_max g c)) as [Hg Hl].
  assert (g ≤ raise_max g c ∧ c ≤ raise_max g c) as [??]
    by (unfold raise_max; case_decide; lia).
  split; [lia|]. constructor; [lia | done].
Qed.

Lemma combined_value_max (hi vi : Z) : combined_value hi vi = Z.max hi vi.
Proof. unfold combined_value. case_decide; lia. Qed.

Section Run.
Context (p : params) (b : buffers) (Hvalid : valid_input p b).

Lemma h_final_length : Z.of_nat (length (h_final p b)) = total_pixels p.
Proof.
  unfold h_final. rewrite raise_length.
  apply calloc_length, (total_pixels_nonneg p b Hvalid).
Qed.

Lemma v_final_length : Z.of_nat (length (v_final p b)) = total_pixels p.
Proof.
  unfold v_final. rewrite raise_length.
  apply calloc_length, (total_pixels_nonneg p b Hvalid).
Qed.

Lemma combined_final_length : Z.of_nat (length (combined_final p b)) = total_pixels p.
Proof.
  unfold combined_final. rewrite length_zip_with.
  pose proof h_final_length. pose proof v_final_length. lia.
Qed.

Lemma normalized_final_length :
  Z.of_nat (length (normalized_final p b)) = total_pixels p.
Proof. unfold normalized_final. rewrite length_fmap. apply combined_final_length. Qed.

Lemma global_max_final_pos : 1 ≤ global_max_final p b.
Proof. apply raise_max_foldl. Qed.

Lemma combined_final_lookup (j : Z) :
  0 ≤ j < total_pixels p →
  combined_final p b !!! Z.to_nat j
  = Z.max (h_final p b !!! Z.to_nat j) (v_final p b !!! Z.to_nat j).
Proof.
  intros Hj. unfold combined_final.
  pose proof h_final_length. pose proof v_final_length.
  rewrite (lookup_total_zip_with combined_value (h_final p b) (v_final p b)) by lia.
  apply combined_value_max.
Qed.

Lemma combined_final_range (j : Z) :
  0 ≤ j < total_pixels p →
  0 ≤ combined_final p b !!! Z.to_nat j ≤ global_max_final p b.
Proof.
  intros Hj. split.
  - rewrite combined_final_lookup by done. unfold h_final.
    rewrite (accumulated_lookup p b Hvalid) by done.
    pose proof (best_ge_start j
      (updates p (h_offsets b) (gy_data b) (seqZ 0 (num_angles p))) 0). lia.
  - destruct (raise_max_foldl (combined_final p b) 1) as [_ Hall].
    apply (Forall_lookup_total_1 _ _ (Z.to_nat j)) in Hall; [done|].
    pose proof combined_final_length. lia.
Qed.

(** With a defined target every stage returns, with these values. *)
Lemma run_stages_run (target : Z) :
  compute_target p = Some target →
  run_stages p b
  = Some (MkTrace (h_final p b) (v_final p b) (combined_final p b)
            (global_max_final p b) (normalized_final p b) (histogram_final p b)
            target (select_threshold (histogram_final p b) target)
            (binary_value (select_threshold (histogram_final p b) target)
               <$> normalized_final p b)).
Proof.
  intros Ht. unfold run_stages.
  rewrite (accumulate_run p b Hvalid). cbn [mbind option_bind].
  rewrite combine_run by (apply h_final_length || apply v_final_length).
  cbn [mbind option_bind].
  fold (combined_final p b). fold (global_max_final p b).
  rewrite normalize_run;
    [| apply combined_final_length | by destruct Hvalid
     | pose proof global_max_final_pos; lia].
  cbn [mbind option_bind]. fold (normalized_final p b). fold (histogram_final p b).
  rewrite Ht. cbn [mbind option_bind].
  rewrite binarize_run by apply normalized_final_length. done.
Qed.

End Run.

Lemma scale_in_range (combined global_max : Z) :
  0 ≤ combined ≤ global_max → 1 ≤ global_max →
  scale combined global_max = Some ((combined * 255) `div` global_max)
  ∧ 0 ≤ (combined * 255) `div` global_max ≤ 255.
Proof.
  intros Hc Hg. unfold scale. rewrite decide_False by lia.
  rewrite Z.quot_div_nonneg by lia.
  assert (0 ≤ (combined * 255) `div` global_max ≤ 255) as Hrange.
  { split; [apply Z.div_pos; lia|]. apply Z.div_le_upper_bound; lia. }
  split; [|done]. by rewrite wrap_int32_small by lia.
Qed.

Lemma iterate_ext {St : Type} (body1 body2 : Z → St → option St) (l : list Z) (s : St) :
  (∀ i s, i ∈ l → body1 i s = body2 i s) → iterate body1 l s = iterate body2 l s.
Proof.
  revert s. induction l as [|i l IH]; intros s Hext; simpl; [done|].
  rewrite Hext by left. destruct (body2 i s) as [s'|]; simpl; [|done].
  apply IH. intros j s'' Hj. apply Hext. by right.
Qed.

(** C8. For every valid input the combining pass leaves
    [global_max >= 1], so the division of the normalisation pass is
    defined at every pixel and the pass returns. *)
Theorem global_max_at_least_one (p : params) (b : buffers) :
  valid_input p b →
  ∃ h v combined global_max,
    accumulate p b = Some (h, v)
    ∧ combine p h v = Some (combined, global_max)
    ∧ 1 ≤ global_max
    ∧ (∀ hi, is_Some (scale hi global_max))
    ∧ is_Some (normalize p combined global_max (result_data b)).
Proof.
  intros Hvalid.
  exists (h_final p b), (v_final p b), (combined_final p b), (global_max_final p b).
  pose proof (global_max_final_pos p b) as Hpos.
  split; [by apply accumulate_run|].
  split; [apply combine_run; [by apply h_final_length | by apply v_final_length]|].
  split; [done|]. split.
  - intros hi. unfold scale. rewrite decide_False by lia. by eexists.
  - rewrite normalize_run;
      [by eexists | by apply combined_final_length | by destruct Hvalid | lia].
Qed.

(** C10. For every valid input the combined response of each pixel lies
    in [[0, global_max]], its scaled value is the floor of
    [combined * 255 / global_max] and lies in [[0, 255]], the clamp leaves
    it unchanged, and the pass without the two clamp statements produces
    the same bytes and the same histogram. *)
Theorem clamps_never_fire (p : params) (b : buffers) :
  valid_input p b →
  ∃ h v combined global_max,
    accumulate p b = Some (h, v)
    ∧ combine p h v = Some (combined, global_max)
    ∧ (∀ j, 0 ≤ j < total_pixels p →
         0 ≤ combined !!! Z.to_nat j ≤ global_max
         ∧ ∃ n, scale (combined !!! Z.to_nat j) global_max = Some n
                ∧ n = (combined !!! Z.to_nat j * 255) `div` global_max
                ∧ 0 ≤ n ≤ 255 ∧ clamp n = n)
    ∧ is_Some (normalize p combined global_max (result_data b))
    ∧ normalize_unclamped p combined global_max (result_data b)
      = normalize p combined global_max (result_data b).
Proof.
  intros Hvalid.
  exists (h_final p b), (v_final p b), (combined_final p b), (global_max_final p b).
  pose proof (global_max_final_pos p b) as Hpos.
  assert (Hpix : ∀ j, 0 ≤ j < total_pixels p →
    0 ≤ combined_final p b !!! Z.to_nat j ≤ global_max_final p b
    ∧ ∃ n, scale (combined_final p b !!! Z.to_nat j) (global_max_final p b) = Some n
           ∧ n = (combined_final p b !!! Z.to_nat j * 255) `div` global_max_final p b
           ∧ 0 ≤ n ≤ 255 ∧ clamp n = n).
  { intros j Hj. pose proof (combined_final_range p b Hvalid j Hj) as Hc.
    split; [done|]. destruct (scale_in_range _ _ Hc Hpos) as [E Hn].
    eexists. split; [done|]. split; [done|]. split; [done|]. by apply clamp_id. }
  split; [by apply accumulate_run|].
  split; [apply combine_run; [by apply h_final_length | by apply v_final_length]|].
  split; [done|]. split.
  - rewrite normalize_run;
      [by eexists | by apply combined_final_length | by destruct Hvalid | lia].
  - unfold normalize_unclamped, normalize, for_range. apply iterate_ext.
    intros i [result histogram] Hi%elem_of_seqZ.
    unfold normalize_step_unclamped, normalize_step.
    rewrite load_in_range by (rewrite combined_final_length; [lia | done]).
    cbn [mbind option_bind].
    destruct (Hpix i ltac:(lia)) as [_ (n & -> & _ & _ & Hclamp)].
    cbn [mbind option_bind]. by rewrite Hclamp.
Qed.

Lemma memset0_full (buf : list Z) (n : Z) :
  Z.of_nat (length buf) = n → memset0 buf n = Some (replicate (Z.to_nat n) 0).
Proof.
  intros Hlen. unfold memset0. rewrite decide_True by lia.
  by rewrite drop_ge, app_nil_r by lia.
Qed.

(** C5. When either accumulator buffer cannot be allocated, the call
    returns with the [rows * cols] output bytes all zero and the four
    other buffers as they were; nothing else is computed (no condition on
    the offsets, the margins or the percentile is needed), and the only
    result is the buffer contents. *)
Theorem allocation_failure_zeroes_output (p : params) (b : buffers) (hp : heap) :
  h_response_ok hp = false ∨ v_response_ok hp = false →
  0 ≤ total_pixels p < 2 ^ 31 →
  Z.of_nat (length (result_data b)) = total_pixels p →
  ∃ b',
    directional_gradient_accumulate p b hp = Some b'
    ∧ result_data b' = replicate (Z.to_nat (total_pixels p)) 0
    ∧ gy_data b' = gy_data b ∧ gx_data b' = gx_data b
    ∧ h_offsets b' = h_offsets b ∧ v_offsets b' = v_offsets b.
Proof.
  intros Hfail Htotal Hlen. unfold directional_gradient_accumulate.
  rewrite decide_True by done.
  assert (h_response_ok hp && v_response_ok hp = false) as ->
    by (destruct Hfail as [-> | ->]; [done | apply andb_false_r]).
  rewrite memset0_full by done. cbn [mbind option_bind].
  eexists. split; [done|]. by repeat split.
Qed.

(** ** The histogram walk *)

Lemma foldr_add_start (l : list Z) (a : Z) : foldr Z.add a l = a + foldr Z.add 0 l.
Proof. induction l as [|x l IH]; simpl; lia. Qed.

Lemma cumulative_before (hist : list Z) : cumulative hist (-1) = 0.
Proof. unfold cumulative. by rewrite seqZ_nil. Qed.

Lemma cumulative_step (hist : list Z) (i : Z) :
  0 ≤ i → cumulative hist i = cumulative hist (i - 1) + hist !!! Z.to_nat i.
Proof.
  intros Hi. unfold cumulative. replace (i - 1 + 1) with i by lia.
  rewrite (seqZ_app 0 i 1), fmap_app, foldr_app by lia. simpl.
  rewrite foldr_add_start. replace (Z.of_nat 0 + (0 + i)) with i by lia. lia.
Qed.

Lemma walk_first (hist : list Z) (target : Z) (n : nat) (lo : Z) :
  0 ≤ lo →
  match walk hist target (seqZ lo (Z.of_nat n)) (cumulative hist (lo - 1)) with
  | Some i => lo ≤ i < lo + Z.of_nat n ∧ target ≤ cumulative hist i
              ∧ ∀ j, lo ≤ j < i → cumulative hist j < target
  | None => ∀ j, lo ≤ j < lo + Z.of_nat n → cumulative hist j < target
  end.
Proof.
  revert lo. induction n as [|n IH]; intros lo Hlo.
  - rewrite seqZ_nil by lia. simpl. intros j Hj. lia.
  - rewrite seqZ_cons by lia. simpl. rewrite <- cumulative_step by done.
    case_decide as Hreach.
    + split; [lia|]. split; [lia|]. intros j Hj. lia.
    + replace (Z.pred (Z.of_nat (S n))) with (Z.of_nat n) by lia.
      specialize (IH (Z.succ lo) ltac:(lia)).
      replace (Z.succ lo - 1) with lo in IH by lia.
      destruct (walk hist target (seqZ (Z.succ lo) (Z.of_nat n)) (cumulative hist lo))
        as [i|].
      * destruct IH as (Hi & Ht & Hbelow). split; [lia|]. split; [done|].
        intros j Hj. destruct (decide (j = lo)) as [->|Hne]; [lia | apply Hbelow; lia].
      * intros j Hj. destruct (decide (j = lo)) as [->|Hne]; [lia | apply IH; lia].
Qed.

(** The walk breaks at the first bin whose running sum reaches the
    target, and falls through when no bin does. *)
Lemma find_bin_first (hist : list Z) (target : Z) :
  match find_bin hist target with
  | Some i => 0 ≤ i < 256 ∧ target ≤ cumulative hist i
              ∧ ∀ j, 0 ≤ j < i → cumulative hist j < target
  | None => ∀ j, 0 ≤ j < 256 → cumulative hist j < target
  end.
Proof.
  pose proof (walk_first hist target 256 0 ltac:(lia)) as H.
  rewrite cumulative_before in H. exact H.
Qed.

Lemma select_threshold_range (hist : list Z) (target : Z) :
  0 ≤ select_threshold hist target ≤ 255.
Proof.
  unfold select_threshold. pose proof (find_bin_first hist target) as H.
  destruct (find_bin hist target) as [i|]; simpl; lia.
Qed.

Lemma select_threshold_mono (hist : list Z) (target1 target2 : Z) :
  target1 ≤ target2 →
  select_threshold hist target1 ≤ select_threshold hist target2.
Proof.
  intros Hle. unfold select_threshold.
  pose proof (find_bin_first hist target1) as H1.
  pose proof (find_bin_first hist target2) as H2.
  destruct (find_bin hist target1) as [i1|], (find_bin hist target2) as [i2|]; simpl.
  - destruct H1 as (? & ? & Hb1), H2 as (? & ? & _).
    destruct (decide (i1 ≤ i2)); [done|]. specialize (Hb1 i2 ltac:(lia)). lia.
  - lia.
  - destruct H2 as (? & ? & _). specialize (H1 i2 ltac:(lia)). lia.
  - done.
Qed.

(** ** The output image *)

Section Output.
Context (p : params) (b : buffers) (Hvalid : valid_input p b).

(** The output byte buffer of a successful run with target [target]. *)
Lemma success_output (hp : heap) (target : Z) :
  compute_target p = Some target →
  h_response_ok hp = true → v_response_ok hp = true →
  directional_gradient_accumulate p b hp
  = Some (with_result b
            (binary_value (select_threshold (histogram_final p b) target)
               <$> normalized_final p b)).
Proof.
  intros Ht Hh Hv. unfold directional_gradient_accumulate.
  pose proof (total_pixels_nonneg p b Hvalid). destruct Hvalid.
  rewrite decide_True by lia. rewrite Hh, Hv. simpl.
  by rewrite (run_stages_run p b Hvalid target Ht).
Qed.

Lemma failure_output (hp : heap) :
  h_response_ok hp && v_response_ok hp = false →
  directional_gradient_accumulate p b hp
  = Some (with_result b (replicate (Z.to_nat (total_pixels p)) 0)).
Proof.
  intros Hfail. unfold directional_gradient_accumulate.
  pose proof (total_pixels_nonneg p b Hvalid). destruct Hvalid.
  rewrite decide_True by lia. rewrite Hfail.
  by rewrite memset0_full by done.
Qed.

(** A pixel outside the margins is never written by the accumulator. *)
Lemma margin_untouched (offs data angles : list Z) (y x : Z) :
  0 ≤ y < rows p → 0 ≤ x < cols p → ¬ interior p y x →
  foldl raise (calloc (total_pixels p)) (updates p offs data angles)
    !!! Z.to_nat (y * cols p + x) = 0.
Proof.
  intros Hy Hx Hout.
  rewrite (accumulated_lookup p b Hvalid) by (unfold total_pixels; nia).
  apply best_absent.
  intros [j s] (a & y' & x' & _ & Hyx & -> & _)%elem_of_updates; simpl.
  intros Heq. apply Hout. destruct Hvalid. unfold interior in *.
  assert (y' = y) by nia. subst y'. assert (x' = x) by lia. by subst x'.
Qed.

End Output.

Lemma binary_value_cases (threshold_val r : Z) :
  binary_value threshold_val r = 0 ∨ binary_value threshold_val r = 255.
Proof. unfold binary_value. case_decide; auto. Qed.

(** C6. On return from a call with valid input every output byte is 0 or
    255; after a successful allocation the byte of pixel [j] is 255 when
    its normalized value is strictly greater than the threshold and 0
    otherwise, so a pixel exactly at the threshold becomes 0. *)
Theorem binarizer_rule (p : params) (b : buffers) (hp : heap) :
  valid_input p b →
  is_Some (compute_target p) →
  ∃ out,
    directional_gradient_accumulate p b hp = Some (with_result b out)
    ∧ Z.of_nat (length out) = total_pixels p
    ∧ Forall (λ o, o = 0 ∨ o = 255) out
    ∧ (h_response_ok hp = true → v_response_ok hp = true →
       ∃ tr,
         run_stages p b = Some tr ∧ out = t_output tr
         ∧ ∀ j, 0 ≤ j < total_pixels p →
             out !!! Z.to_nat j
             = (if decide (t_normalized tr !!! Z.to_nat j > t_threshold tr)
                then 255 else 0)
             ∧ (t_normalized tr !!! Z.to_nat j = t_threshold tr →
                out !!! Z.to_nat j = 0)).
Proof.
  intros Hvalid [target Ht].
  destruct (h_response_ok hp && v_response_ok hp) eqn:Hheap.
  - apply andb_true_iff in Hheap as [Hh Hv].
    eexists. split; [by apply success_output|].
    split; [rewrite length_fmap; by apply normalized_final_length|].
    split; [apply Forall_fmap, Forall_true; intros r; apply binary_value_cases|].
    intros _ _. eexists. split; [by apply run_stages_run|]. split; [done|].
    intros j Hj. simpl.
    rewrite (list_lookup_total_fmap (binary_value _))
      by (pose proof (normalized_final_length p b Hvalid); lia).
    split; [done|]. intros ->. unfold binary_value. by rewrite decide_False by lia.
  - eexists. split; [by apply failure_output|].
    pose proof (total_pixels_nonneg p b Hvalid).
    split; [rewrite length_replicate; lia|].
    split; [apply Forall_replicate; by left|].
    intros Hh Hv. by rewrite Hh, Hv in Hheap.
Qed.

(** C7. For every valid input, whatever the angle and offset tables,
    every pixel outside the interior region is 0 in the output. *)
Theorem margin_pixels_zero (p : params) (b : buffers) (hp : heap) :
  valid_input p b →
  is_Some (compute_target p) →
  ∃ out,
    directional_gradient_accumulate p b hp = Some (with_result b out)
    ∧ ∀ y x, 0 ≤ y < rows p → 0 ≤ x < cols p → ¬ interior p y x →
        out !!! Z.to_nat (y * cols p + x) = 0.
Proof.
  intros Hvalid [target Ht].
  destruct (h_response_ok hp && v_response_ok hp) eqn:Hheap.
  - apply andb_true_iff in Hheap as [Hh Hv].
    eexists. split; [by apply success_output|].
    intros y x Hy Hx Hout.
    assert (0 ≤ y * cols p + x < total_pixels p) as Hj by (unfold total_pixels; nia).
    rewrite (list_lookup_total_fmap (binary_value _))
      by (pose proof (normalized_final_length p b Hvalid); lia).
    unfold normalized_final. rewrite (list_lookup_total_fmap (normalized_value _))
      by (pose proof (combined_final_length p b Hvalid); lia).
    rewrite (combined_final_lookup p b Hvalid) by done.
    unfold h_final, v_final. rewrite !(margin_untouched p b Hvalid) by done.
    pose proof (select_threshold_range (histogram_final p b) target).
    unfold normalized_value, binary_value. simpl. rewrite Z.quot_0_l
      by (pose proof (global_max_final_pos p b); lia).
    rewrite wrap_int32_small by lia. rewrite clamp_id by lia.
    by rewrite decide_False by lia.
  - eexists. split; [by apply failure_output|].
    intros y x Hy Hx _. apply lookup_total_replicate_2. unfold total_pixels. nia.
Qed.

(** ** Scenarios *)

(** C1. Scenario B: with the hot pixel 100 / 50 in the centre of a 3x3
    image and percentile 0.9, the accumulators hold 100 and 50 at the
    centre only, [global_max] is 100, the normalized image is 255 at the
    centre and 0 elsewhere, the histogram has 8 pixels in bin 0 and 1 in
    bin 255, the target is 8, the threshold 0, and the output is 255 at
    the centre and 0 elsewhere, whatever the output buffer held before. *)
Theorem scenario_B_single_hotspot (r0 r1 r2 r3 r4 r5 r6 r7 r8 : Z) :
  let b := scenario_B_buffers [r0; r1; r2; r3; r4; r5; r6; r7; r8] in
  run_stages scenario_B_params b
  = Some {| t_h_acc := [0; 0; 0; 0; 100; 0; 0; 0; 0];
            t_v_acc := [0; 0; 0; 0; 50; 0; 0; 0; 0];
            t_combined := [0; 0; 0; 0; 100; 0; 0; 0; 0];
            t_global_max := 100;
            t_normalized := [0; 0; 0; 0; 255; 0; 0; 0; 0];
            t_histogram := <[255%nat := 1]> (<[0%nat := 8]> (replicate 256 0));
            t_target := 8;
            t_threshold := 0;
            t_output := [0; 0; 0; 0; 255; 0; 0; 0; 0] |}
  ∧ directional_gradient_accumulate scenario_B_params b (MkHeap true true)
    = Some (with_result b [0; 0; 0; 0; 255; 0; 0; 0; 0]).
Proof. split; vm_compute; reflexivity. Qed.

(** ** Single-precision rounding *)

Module Float32Facts.
Import Float32.

Lemma pow2_pos (k : Z) : 0 ≤ k → 0 < 2 ^ k.
Proof. intros. by apply Z.pow_pos_nonneg. Qed.

Lemma pow2_split (a k : Z) : 0 ≤ a → 0 ≤ k → 2 ^ (a + k) = 2 ^ a * 2 ^ k.
Proof. intros. by apply Z.pow_add_r. Qed.

Lemma shift_of_nonneg (L Y : Z) : 149 ≤ L → 0 ≤ shift_of L Y.
Proof. unfold shift_of. lia. Qed.

Lemma shift_of_mono (L Y1 Y2 : Z) : Y1 ≤ Y2 → shift_of L Y1 ≤ shift_of L Y2.
Proof. intros H. unfold shift_of. pose proof (Z.log2_le_mono Y1 Y2 H). lia. Qed.

Lemma shift_of_scale (L Y k : Z) :
  0 < Y → 0 ≤ k → shift_of (L + k) (Y * 2 ^ k) = shift_of L Y + k.
Proof. intros HY Hk. unfold shift_of. rewrite Z.log2_mul_pow2 by lia. lia. Qed.

(** [rne] lies between the floor and the floor plus one. *)
Lemma rne_bounds (Y s : Z) : Y `div` 2 ^ s ≤ rne Y s ≤ Y `div` 2 ^ s + 1.
Proof. unfold rne. destruct (_ || _); lia. Qed.

Lemma rne_exact (Y s : Z) : 0 ≤ s → Y `mod` 2 ^ s = 0 → rne Y s * 2 ^ s = Y.
Proof.
  intros Hs Hmod. pose proof (pow2_pos s Hs) as Hpos. unfold rne. rewrite Hmod.
  replace (2 ^ s <? 2 * 0) with false by (symmetry; apply Z.ltb_ge; lia).
  replace (2 * 0 =? 2 ^ s) with false by (symmetry; apply Z.eqb_neq; lia).
  simpl. pose proof (Z.div_mod Y (2 ^ s) ltac:(lia)). lia.
Qed.

Lemma rne_scale (Y s k : Z) : 0 ≤ s → 0 ≤ k → rne (Y * 2 ^ k) (s + k) = rne Y s.
Proof.
  intros Hs Hk. unfold rne.
  pose proof (pow2_pos s Hs). pose proof (pow2_pos k Hk).
  rewrite pow2_split by done.
  rewrite Z.div_mul_cancel_r, Z.mul_mod_distr_r by lia.
  replace (2 ^ s * 2 ^ k <? 2 * (Y `mod` 2 ^ s * 2 ^ k))
    with (2 ^ s <? 2 * (Y `mod` 2 ^ s)).
  2:{ destruct (Z.ltb_spec (2 ^ s) (2 * (Y `mod` 2 ^ s)));
      symmetry; [apply Z.ltb_lt | apply Z.ltb_ge]; nia. }
  replace (2 * (Y `mod` 2 ^ s * 2 ^ k) =? 2 ^ s * 2 ^ k)
    with (2 * (Y `mod` 2 ^ s) =? 2 ^ s).
  2:{ destruct (Z.eqb_spec (2 * (Y `mod` 2 ^ s)) (2 ^ s));
      symmetry; [apply Z.eqb_eq | apply Z.eqb_neq]; nia. }
  done.
Qed.

Lemma rne_mono (Y1 Y2 s : Z) : 0 ≤ s → Y1 ≤ Y2 → rne Y1 s ≤ rne Y2 s.
Proof.
  intros Hs Hle. pose proof (pow2_pos s Hs) as Hpos.
  pose proof (Z.div_le_mono Y1 Y2 (2 ^ s) Hpos Hle) as Hlo.
  destruct (decide (Y1 `div` 2 ^ s = Y2 `div` 2 ^ s)) as [Heq|Hne].
  - pose proof (Z.div_mod Y1 (2 ^ s) ltac:(lia)) as E1.
    pose proof (Z.div_mod Y2 (2 ^ s) ltac:(lia)) as E2.
    assert (Y1 `mod` 2 ^ s ≤ Y2 `mod` 2 ^ s) as Hrem by nia.
    unfold rne. rewrite Heq.
    destruct (Z.ltb_spec (2 ^ s) (2 * Y1 `mod` 2 ^ s)) as [H1|H1];
    destruct (Z.ltb_spec (2 ^ s) (2 * Y2 `mod` 2 ^ s)) as [H2|H2];
    destruct (Z.eqb_spec (2 * Y1 `mod` 2 ^ s) (2 ^ s)) as [H3|H3];
    destruct (Z.eqb_spec (2 * Y2 `mod` 2 ^ s) (2 ^ s)) as [H4|H4];
    destruct (Z.odd (Y2 `div` 2 ^ s)); simpl; lia.
  - pose proof (rne_bounds Y1 s). pose proof (rne_bounds Y2 s). lia.
Qed.

Lemma rounded_nonneg (L Y : Z) : 149 ≤ L → 0 ≤ Y → 0 ≤ rounded L Y.
Proof.
  intros HL HY. unfold rounded.
  pose proof (shift_of_nonneg L Y HL) as Hs. pose proof (pow2_pos _ Hs).
  pose proof (rne_bounds Y (shift_of L Y)).
  pose proof (Z.div_pos Y (2 ^ shift_of L Y) HY ltac:(lia)). nia.
Qed.

Lemma rounded_scale (L Y k : Z) :
  149 ≤ L → 0 < Y → 0 ≤ k → rounded (L + k) (Y * 2 ^ k) = rounded L Y * 2 ^ k.
Proof.
  intros HL HY Hk. unfold rounded. rewrite shift_of_scale by done.
  pose proof (shift_of_nonneg L Y HL).
  rewrite rne_scale, pow2_split by done. lia.
Qed.

(** Rounding is monotone. *)
Lemma rounded_mono (L Y1 Y2 : Z) :
  149 ≤ L → 0 < Y1 → Y1 ≤ Y2 → rounded L Y1 ≤ rounded L Y2.
Proof.
  intros HL HY1 Hle. unfold rounded.
  pose proof (shift_of_mono L Y1 Y2 Hle) as Hs.
  pose proof (shift_of_nonneg L Y1 HL) as Hs1.
  set (s1 := shift_of L Y1) in *. set (s2 := shift_of L Y2) in *.
  destruct (decide (s1 = s2)) as [<-|Hne].
  - pose proof (rne_mono Y1 Y2 s1 Hs1 Hle). pose proof (pow2_pos s1 Hs1). nia.
  - assert (s2 = Z.log2 Y2 - 23 ∧ Z.log2 Y1 - 23 < s2) as [Es2 Hlog1]
      by (unfold s1, s2, shift_of in *; lia).
    assert (Y1 < 2 ^ (s2 + 23)) as HY1up by (apply Z.log2_lt_pow2; lia).
    assert (2 ^ (s2 + 23) ≤ Y2) as HY2lo by (apply Z.log2_le_pow2; lia).
    pose proof (pow2_pos s1 Hs1). pose proof (pow2_pos s2 ltac:(lia)).
    trans (2 ^ (s2 + 23)).
    + replace (s2 + 23) with ((s2 + 23 - s1) + s1) in HY1up |- * by lia.
      rewrite pow2_split in HY1up |- * by lia.
      pose proof (rne_bounds Y1 s1) as [_ Hup].
      assert (Y1 `div` 2 ^ s1 < 2 ^ (s2 + 23 - s1))
        by (apply Z.div_lt_upper_bound; lia).
      nia.
    + rewrite (pow2_split s2 23) in HY2lo |- * by lia.
      pose proof (rne_bounds Y2 s2) as [Hlo _].
      assert (2 ^ 23 ≤ Y2 `div` 2 ^ s2) by (apply Z.div_le_lower_bound; lia).
      nia.
Qed.

Lemma srounded_mono (L Y1 Y2 : Z) :
  149 ≤ L → Y1 ≤ Y2 → srounded L Y1 ≤ srounded L Y2.
Proof.
  intros HL Hle. unfold srounded.
  destruct (Z.eqb_spec Y1 0), (Z.eqb_spec Y2 0),
           (Z.ltb_spec Y1 0), (Z.ltb_spec Y2 0); try lia.
  - pose proof (rounded_nonneg L Y2 HL). lia.
  - pose proof (rounded_nonneg L (- Y1) HL). lia.
  - pose proof (rounded_mono L (- Y2) (- Y1) HL). lia.
  - pose proof (rounded_nonneg L (- Y1) HL). pose proof (rounded_nonneg L Y2 HL). lia.
  - by apply rounded_mono; [| lia |].
Qed.

(** The finite results of [round], seen at any sufficiently fine scale. *)
Lemma round_scaled (m e L : Z) :
  149 ≤ L → 0 ≤ e + L →
  match round m e with
  | Fin r q => 0 ≤ q + L ∧ r * 2 ^ (q + L) = srounded L (m * 2 ^ (e + L))
  | Inf _ => True
  | NaN => False
  end.
Proof.
  intros HL He. pose proof (pow2_pos (e + L) He) as Hpow.
  assert (Hpos : ∀ neg m', 0 < m' →
    match round_pos neg m' e with
    | Fin r q => 0 ≤ q + L
                 ∧ r * 2 ^ (q + L)
                   = (if neg then -1 else 1) * rounded L (m' * 2 ^ (e + L))
    | Inf _ => True
    | NaN => False
    end).
  { intros neg m' Hm'. unfold round_pos.
    set (L0 := - Z.min e (-149)).
    set (X := m' * 2 ^ (e + L0)). set (s := shift_of L0 X).
    destruct (128 <=? Z.log2 (rne X s) + (s - L0)); [done|].
    assert (149 ≤ L0 ∧ 0 ≤ e + L0 ∧ L0 ≤ L) as (HL0 & He0 & HLL0) by (unfold L0; lia).
    pose proof (shift_of_nonneg L0 X HL0) as Hs. fold s in Hs.
    assert (0 < X) as HX by (unfold X; pose proof (pow2_pos (e + L0) He0); nia).
    split; [lia|].
    replace (m' * 2 ^ (e + L)) with (X * 2 ^ (L - L0)).
    2:{ unfold X. rewrite <- Z.mul_assoc, <- pow2_split by lia. do 2 f_equal. lia. }
    replace L with (L0 + (L - L0)) at 2 by lia.
    rewrite rounded_scale by lia. unfold rounded. fold s.
    replace (s - L0 + L) with (s + (L - L0)) by lia.
    rewrite pow2_split by lia. destruct neg; lia. }
  unfold round, srounded.
  destruct (Z.eqb_spec m 0) as [->|Hm0].
  - rewrite Z.mul_0_l. simpl. split; lia.
  - destruct (Z.eqb_spec (m * 2 ^ (e + L)) 0) as [E0|_]; [nia|].
    destruct (Z.ltb_spec m 0) as [Hneg|Hnn].
    + destruct (Z.ltb_spec (m * 2 ^ (e + L)) 0); [|nia].
      specialize (Hpos true (- m) ltac:(lia)).
      replace (- (m * 2 ^ (e + L))) with (- m * 2 ^ (e + L)) by lia.
      destruct (round_pos true (- m) e); [done | done |].
      destruct Hpos as [? ->]. split; [done | lia].
    + destruct (Z.ltb_spec (m * 2 ^ (e + L)) 0); [nia|].
      specialize (Hpos false m ltac:(lia)).
      destruct (round_pos false m e); [done | done |].
      destruct Hpos as [? ->]. split; [done | lia].
Qed.

Lemma to_int_scaled (r q L : Z) :
  0 ≤ L → 0 ≤ q + L →
  to_int (Fin r q)
  = (let v := (r * 2 ^ (q + L)) `quot` 2 ^ L in
     if (- 2 ^ 31 <=? v) && (v <? 2 ^ 31) then Some v else None).
Proof.
  intros HL Hq. unfold to_int. pose proof (pow2_pos L HL).
  assert ((if 0 <=? q then r * 2 ^ q else r `quot` 2 ^ (- q))
          = (r * 2 ^ (q + L)) `quot` 2 ^ L) as ->; [|done].
  destruct (Z.leb_spec 0 q).
  - rewrite pow2_split, Z.mul_assoc, Z.quot_mul by lia. done.
  - pose proof (pow2_pos (q + L) Hq). pose proof (pow2_pos (- q) ltac:(lia)).
    replace L with (- q + (q + L)) at 2 by lia.
    rewrite (pow2_split (- q) (q + L)), Z.quot_mul_cancel_r by lia. done.
Qed.

(** The integer a finite rounded product converts to. *)
Lemma to_int_round (m e L v : Z) :
  149 ≤ L → 0 ≤ e + L →
  to_int (round m e) = Some v →
  v = srounded L (m * 2 ^ (e + L)) `quot` 2 ^ L ∧ - 2 ^ 31 ≤ v < 2 ^ 31.
Proof.
  intros HL He Hv. pose proof (round_scaled m e L HL He) as Hr.
  destruct (round m e) as [|neg|r q]; [done | done |].
  destruct Hr as [Hq Hr]. rewrite (to_int_scaled r q L) in Hv by lia.
  rewrite Hr in Hv. simpl in Hv.
  destruct (_ && _) eqn:Hrange in Hv; [|done]. injection Hv as <-.
  split; [done|]. apply andb_true_iff in Hrange as [?%Z.leb_le ?%Z.ltb_lt]. lia.
Qed.

Lemma leb_fin_scaled (m1 e1 m2 e2 L : Z) :
  0 ≤ e1 + L → 0 ≤ e2 + L →
  leb (Fin m1 e1) (Fin m2 e2) = true →
  m1 * 2 ^ (e1 + L) ≤ m2 * 2 ^ (e2 + L).
Proof.
  intros H1 H2 Hle. unfold leb in Hle. apply Z.leb_le in Hle.
  set (e0 := Z.min e1 e2) in *.
  assert (e0 ≤ e1 ∧ e0 ≤ e2 ∧ (e0 = e1 ∨ e0 = e2)) as He0 by (subst e0; lia).
  clearbody e0.
  replace (e1 + L) with ((e1 - e0) + (e0 + L)) by lia.
  replace (e2 + L) with ((e2 - e0) + (e0 + L)) by lia.
  rewrite (pow2_split (e1 - e0) (e0 + L)), (pow2_split (e2 - e0) (e0 + L)) by lia.
  rewrite !Z.mul_assoc.
  apply Z.mul_le_mono_nonneg_r; [|done]. apply Z.lt_le_incl, pow2_pos. lia.
Qed.

Lemma of_int_nonneg (n : Z) :
  0 ≤ n →
  match of_int n with
  | Fin N E => 0 ≤ N
  | Inf _ => True
  | NaN => False
  end.
Proof.
  intros Hn. unfold of_int.
  pose proof (round_scaled n 0 149 ltac:(lia) ltac:(lia)) as Hr.
  destruct (round n 0) as [| |N E]; [done | done |].
  destruct Hr as [HE Hr]. pose proof (pow2_pos (E + 149) HE).
  pose proof (pow2_pos (0 + 149) ltac:(lia)) as Hp.
  assert (0 ≤ n * 2 ^ (0 + 149)) as Hnn by (apply Z.mul_nonneg_nonneg; lia).
  pose proof (srounded_mono 149 0 _ ltac:(lia) Hnn) as Hm.
  unfold srounded at 1 in Hm. simpl in Hm. nia.
Qed.

(** A float operand whose product with a finite integer converts to
    [int] is itself finite. *)
Lemma mul_to_int_finite (N E : Z) (q : t) (v : Z) :
  to_int (mul (Fin N E) q) = Some v → ∃ m e, q = Fin m e.
Proof.
  destruct q as [|neg|m e]; simpl; [done | | by eauto].
  by destruct (N =? 0).
Qed.

(** The target is monotone in the percentile. *)
Lemma mul_of_int_mono (n : Z) (q1 q2 : t) (t1 t2 : Z) :
  0 ≤ n →
  leb q1 q2 = true →
  to_int (mul (of_int n) q1) = Some t1 →
  to_int (mul (of_int n) q2) = Some t2 →
  t1 ≤ t2.
Proof.
  intros Hn Hle H1 H2. pose proof (of_int_nonneg n Hn) as HN.
  destruct (of_int n) as [|neg|N E]; [done | |].
  { destruct q1 as [| |m e]; simpl in H1; [done | done |]. by destruct (m =? 0). }
  destruct (mul_to_int_finite _ _ _ _ H1) as (m1 & e1 & ->).
  destruct (mul_to_int_finite _ _ _ _ H2) as (m2 & e2 & ->).
  simpl in H1, H2.
  set (L := 149 + Z.abs E + Z.abs e1 + Z.abs e2).
  apply (to_int_round _ _ L) in H1 as [-> _]; [|lia..].
  apply (to_int_round _ _ L) in H2 as [-> _]; [|lia..].
  apply Z.quot_le_mono; [apply pow2_pos; lia|].
  apply srounded_mono; [lia|].
  pose proof (leb_fin_scaled m1 e1 m2 e2 (E + L) ltac:(lia) ltac:(lia) Hle) as Hs.
  replace (E + e1 + L) with (e1 + (E + L)) by lia.
  replace (E + e2 + L) with (e2 + (E + L)) by lia. nia.
Qed.

(** Integers up to [2^24] are binary32 numbers. *)
Lemma srounded_exact_int (n L : Z) :
  0 ≤ n ≤ 2 ^ 24 → 149 ≤ L → srounded L (n * 2 ^ L) = n * 2 ^ L.
Proof.
  intros Hn HL. pose proof (pow2_pos L ltac:(lia)) as HpL. unfold srounded.
  destruct (Z.eqb_spec (n * 2 ^ L) 0) as [E|Hne]; [done|].
  destruct (Z.ltb_spec (n * 2 ^ L) 0); [nia|].
  assert (0 < n) as Hpos by nia.
  unfold rounded. apply rne_exact; [by apply shift_of_nonneg|].
  unfold shift_of. rewrite Z.log2_mul_pow2 by lia.
  destruct (decide (Z.log2 n ≤ 23)) as [Hlog|Hlog].
  - set (s := Z.max (L + Z.log2 n - 23) (L - 149)).
    assert (0 ≤ s ≤ L) as Hs by (unfold s; pose proof (Z.log2_nonneg n); lia).
    clearbody s. replace L with ((L - s) + s) at 1 by lia.
    rewrite pow2_split, Z.mul_assoc by lia. apply Z.mod_mul.
    pose proof (pow2_pos s ltac:(lia)). lia.
  - assert (2 ^ 24 ≤ n) by (apply Z.log2_le_pow2; lia).
    assert (n = 2 ^ 24) as -> by lia.
    replace (Z.log2 (2 ^ 24)) with 24 by done.
    replace (Z.max (L + 24 - 23) (L - 149)) with (1 + L) by lia.
    rewrite (pow2_split 1 L) by lia.
    replace (2 ^ 24 * 2 ^ L) with (2 ^ 23 * (2 ^ 1 * 2 ^ L)) by lia.
    apply Z.mod_mul. lia.
Qed.

(** With at most [2^24] pixels and a percentile at most 1, the target
    does not exceed the pixel count. *)
Lemma mul_of_int_le (n : Z) (q : t) (v : Z) :
  0 ≤ n ≤ 2 ^ 24 →
  leb q one = true →
  to_int (mul (of_int n) q) = Some v →
  v ≤ n.
Proof.
  intros Hn Hle Hv. pose proof (of_int_nonneg n ltac:(lia)) as HN.
  unfold of_int in *.
  destruct (round n 0) as [|neg|N E] eqn:EF; [done | |].
  { destruct q as [| |m e]; simpl in Hv; [done | done |]. by destruct (m =? 0). }
  destruct (mul_to_int_finite _ _ _ _ Hv) as (m & e & ->). simpl in Hv.
  set (L := 149 + Z.abs E + Z.abs e).
  pose proof (round_scaled n 0 L ltac:(lia) ltac:(lia)) as Hr. rewrite EF in Hr.
  destruct Hr as [HE Hr]. rewrite Z.add_0_l, srounded_exact_int in Hr by lia.
  apply (to_int_round _ _ L) in Hv as [-> _]; [|lia..].
  pose proof (pow2_pos L ltac:(lia)) as HpL.
  rewrite <- (Z.quot_mul n (2 ^ L)) by lia.
  apply Z.quot_le_mono; [done|].
  rewrite <- (srounded_exact_int n L) by lia. apply srounded_mono; [lia|].
  pose proof (leb_fin_scaled m e 1 0 (E + L) ltac:(lia) ltac:(lia) Hle) as Hs.
  rewrite <- Hr. replace (E + e + L) with (e + (E + L)) by lia.
  replace (0 + (E + L)) with (E + L) in Hs by lia. nia.
Qed.

(** Binary32 numbers [k * 2^j] with [k < 2^24] round to themselves. *)
Lemma srounded_exact_repr (k j L : Z) :
  0 ≤ k < 2 ^ 24 → 0 ≤ j → 149 ≤ L →
  srounded L (k * 2 ^ j * 2 ^ L) = k * 2 ^ j * 2 ^ L.
Proof.
  intros Hk Hj HL. rewrite <- Z.mul_assoc, <- pow2_split by lia.
  pose proof (pow2_pos (j + L) ltac:(lia)) as Hp. unfold srounded.
  destruct (Z.eqb_spec (k * 2 ^ (j + L)) 0) as [E|Hne]; [done|].
  destruct (Z.ltb_spec (k * 2 ^ (j + L)) 0); [nia|].
  assert (0 < k) as Hpos by nia.
  unfold rounded. apply rne_exact; [by apply shift_of_nonneg|].
  unfold shift_of. rewrite Z.log2_mul_pow2 by lia.
  assert (Z.log2 k < 24) as Hlog by (apply Z.log2_lt_pow2; lia).
  pose proof (Z.log2_nonneg k).
  set (s := Z.max (j + L + Z.log2 k - 23) (L - 149)).
  assert (0 ≤ s ≤ j + L) as Hs by (unfold s; lia). clearbody s.
  replace (j + L) with ((j + L - s) + s) by lia.
  rewrite pow2_split, Z.mul_assoc by lia. apply Z.mod_mul.
  pose proof (pow2_pos s ltac:(lia)). lia.
Qed.

(** Products of magnitude at most [2^K], [K <= 127], do not overflow. *)
Lemma round_pos_small (K : Z) (neg : bool) (m e : Z) :
  0 ≤ K ≤ 127 →
  0 < m →
  m * 2 ^ (e - Z.min e (-149)) ≤ 2 ^ K * 2 ^ (- Z.min e (-149)) →
  ∃ r q, round_pos neg m e = Fin r q.
Proof.
  intros HK Hm Hsmall. unfold round_pos.
  replace (e - Z.min e (-149)) with (e + - Z.min e (-149)) in Hsmall by lia.
  set (L0 := - Z.min e (-149)) in *.
  assert (149 ≤ L0 ∧ 0 ≤ e + L0) as [HL0 He0] by (unfold L0; lia). clearbody L0.
  set (X := m * 2 ^ (e + L0)) in *.
  pose proof (pow2_pos (e + L0) He0). pose proof (pow2_pos L0 ltac:(lia)).
  pose proof (pow2_pos K ltac:(lia)).
  assert (0 < X) as HX by (unfold X; nia).
  pose proof (shift_of_nonneg L0 X HL0) as Hs.
  pose proof (srounded_mono L0 X (2 ^ K * 2 ^ L0) HL0 Hsmall) as Hmono.
  pose proof (srounded_exact_repr 1 K L0 ltac:(lia) ltac:(lia) HL0) as Hexact.
  rewrite Z.mul_1_l in Hexact. rewrite Hexact in Hmono. unfold srounded in Hmono.
  destruct (Z.eqb_spec X 0); [lia|]. destruct (Z.ltb_spec X 0); [lia|].
  unfold rounded in Hmono. set (s := shift_of L0 X) in *.
  pose proof (rne_bounds X s) as [Hlo _].
  pose proof (pow2_pos s Hs).
  pose proof (Z.div_pos X (2 ^ s) ltac:(lia) ltac:(lia)).
  assert (Z.log2 (rne X s) + (s - L0) < 128) as Hfin.
  { destruct (decide (rne X s = 0)) as [->|Hr].
    - assert (Z.log2 X ≤ K + L0) as Hlog.
      { rewrite <- (Z.log2_pow2 (K + L0)) by lia. apply Z.log2_le_mono.
        rewrite pow2_split by lia. lia. }
      simpl. unfold s, shift_of. lia.
    - pose proof (Z.log2_spec (rne X s) ltac:(lia)) as [Hlog _].
      pose proof (Z.log2_nonneg (rne X s)).
      assert (2 ^ (Z.log2 (rne X s) + s) ≤ 2 ^ (K + L0)) as Hpow.
      { rewrite !pow2_split by lia. nia. }
      apply Z.pow_le_mono_r_iff in Hpow; lia. }
  destruct (Z.leb_spec 128 (Z.log2 (rne X s) + (s - L0))); [lia|]. eauto.
Qed.

(** Pixel counts up to [2^31 - 65] convert to at most [2^31 - 128], the
    largest binary32 number below [2^31]. *)
Lemma of_int_upper (n L : Z) :
  0 ≤ n ≤ 2 ^ 31 - 65 → 149 ≤ L →
  srounded L (n * 2 ^ L) ≤ (2 ^ 31 - 128) * 2 ^ L.
Proof.
  intros Hn HL. pose proof (pow2_pos L ltac:(lia)) as HpL.
  trans (srounded L ((2 ^ 31 - 65) * 2 ^ L)); [apply srounded_mono; [done | nia]|].
  unfold srounded.
  destruct (Z.eqb_spec ((2 ^ 31 - 65) * 2 ^ L) 0); [lia|].
  destruct (Z.ltb_spec ((2 ^ 31 - 65) * 2 ^ L) 0); [lia|].
  replace L with (149 + (L - 149)) by lia.
  rewrite pow2_split, Z.mul_assoc, rounded_scale by lia.
  replace (rounded 149 ((2 ^ 31 - 65) * 2 ^ 149)) with ((2 ^ 31 - 128) * 2 ^ 149)
    by (by vm_compute).
  lia.
Qed.

(** For at most [2^31 - 65] pixels and a percentile in [[0, 1]] the
    target is defined. *)
Lemma target_defined_wide (n : Z) (q : t) :
  0 ≤ n ≤ 2 ^ 31 - 65 →
  leb zero q = true → leb q one = true →
  ∃ v, to_int (mul (of_int n) q) = Some v ∧ 0 ≤ v ≤ 2 ^ 31 - 128.
Proof.
  intros Hn Hq0 Hq1.
  destruct q as [|neg|m e]; [done | by destruct neg |].
  assert (0 ≤ m) as Hm.
  { unfold leb, zero in Hq0. apply Z.leb_le in Hq0.
    pose proof (pow2_pos (e - Z.min 0 e) ltac:(lia)). nia. }
  pose proof (of_int_nonneg n ltac:(lia)) as HN.
  pose proof (round_scaled n 0 149 ltac:(lia) ltac:(lia)) as HE.
  assert (∃ N E, of_int n = Fin N E) as (N & E & EF).
  { unfold of_int, round. destruct (Z.eqb_spec n 0); [by eauto|].
    destruct (Z.ltb_spec n 0); [lia|]. apply (round_pos_small 31); [lia | lia |].
    replace (0 - Z.min 0 (-149)) with 149 by lia.
    replace (- Z.min 0 (-149)) with 149 by lia.
    apply Z.mul_le_mono_nonneg_r; [|lia]. apply Z.lt_le_incl, pow2_pos. lia. }
  unfold of_int in *. rewrite EF in HN, HE |- *. destruct HE as [HE _]. simpl.
  unfold round. destruct (Z.eqb_spec (N * m) 0) as [E0|Hne].
  { exists 0. by vm_compute. }
  destruct (Z.ltb_spec (N * m) 0); [nia|].
  set (L := - Z.min (E + e) (-149)).
  assert (149 ≤ L ∧ 0 ≤ E + e + L) as [HL HeL] by (unfold L; lia).
  pose proof (pow2_pos L ltac:(lia)) as HpL.
  pose proof (round_scaled n 0 L ltac:(lia) ltac:(lia)) as Hr. rewrite EF in Hr.
  destruct Hr as [_ Hr]. rewrite Z.add_0_l in Hr.
  pose proof (of_int_upper n L Hn HL) as Hup. rewrite <- Hr in Hup.
  pose proof (leb_fin_scaled m e 1 0 (E + L) ltac:(lia) ltac:(lia) Hq1) as Hs.
  replace (0 + (E + L)) with (E + L) in Hs by lia.
  assert (N * m * 2 ^ (E + e + L) ≤ (2 ^ 31 - 128) * 2 ^ L) as Hle.
  { replace (E + e + L) with (e + (E + L)) by lia. nia. }
  destruct (round_pos_small 31 false (N * m) (E + e)) as (r & q & Erq);
    [lia | lia | |].
  { replace (E + e - Z.min (E + e) (-149)) with (E + e + L) by (unfold L; lia).
    fold L. nia. }
  rewrite Erq.
  pose proof (round_scaled (N * m) (E + e) L HL HeL) as Hrq.
  unfold round in Hrq. destruct (Z.eqb_spec (N * m) 0); [done|].
  destruct (Z.ltb_spec (N * m) 0); [lia|]. rewrite Erq in Hrq.
  destruct Hrq as [Hq Hrq]. rewrite (to_int_scaled r q L) by lia. rewrite Hrq.
  pose proof (pow2_pos (E + e + L) HeL).
  pose proof (srounded_mono L 0 (N * m * 2 ^ (E + e + L)) HL ltac:(nia)) as Hlo.
  pose proof (srounded_mono L _ _ HL Hle) as Hhi.
  pose proof (srounded_exact_repr (2 ^ 24 - 1) 7 L ltac:(lia) ltac:(lia) HL) as Hex.
  replace ((2 ^ 24 - 1) * 2 ^ 7) with (2 ^ 31 - 128) in Hex by done.
  rewrite Hex in Hhi. change (srounded L 0) with 0 in Hlo.
  set (S := srounded L (N * m * 2 ^ (E + e + L))) in *. clearbody S.
  assert (0 ≤ S `quot` 2 ^ L ≤ 2 ^ 31 - 128) as Hrange.
  { split; [apply Z.quot_pos; lia|].
    rewrite <- (Z.quot_mul (2 ^ 31 - 128) (2 ^ L)) by lia.
    apply Z.quot_le_mono; lia. }
  simpl. destruct (Z.leb_spec (- 2 ^ 31) (S `quot` 2 ^ L)); [|lia].
  destruct (Z.ltb_spec (S `quot` 2 ^ L) (2 ^ 31)); [|lia]. simpl.
  eexists. split; [done | lia].
Qed.

(** For at most [2^24] pixels and a percentile in [[0, 1]] the target
    lies between 0 and the pixel count. *)
Lemma target_defined (n : Z) (q : t) :
  0 ≤ n ≤ 2 ^ 24 →
  leb zero q = true → leb q one = true →
  ∃ v, to_int (mul (of_int n) q) = Some v ∧ 0 ≤ v ≤ n.
Proof.
  intros Hn Hq0 Hq1.
  destruct (target_defined_wide n q ltac:(lia) Hq0 Hq1) as (v & Hv & Hv0 & _).
  exists v. split; [done|]. split; [done|]. by apply (mul_of_int_le n q).
Qed.

End Float32Facts.

(** ** The histogram counts the normalized values *)

Lemma count_eq_snoc (k v : Z) (values : list Z) :
  count_eq k (values ++ [v]) = count_eq k values + (if decide (v = k) then 1 else 0).
Proof.
  unfold count_eq. rewrite filter_app, length_app, filter_cons, filter_nil.
  case_decide; simpl; lia.
Qed.

Lemma histogram_lookup (values : list Z) (k : nat) :
  (k < 256)%nat → Forall (λ v, 0 ≤ v) values →
  histogram_of values !!! k = count_eq (Z.of_nat k) values.
Proof.
  intros Hk. induction values as [|v values IH] using rev_ind; intros Hnn.
  - unfold histogram_of, count_eq. rewrite filter_nil. cbn [foldl length].
    by apply lookup_total_replicate_2.
  - apply Forall_app in Hnn as [Hvalues Hv]. rewrite Forall_singleton in Hv.
    rewrite histogram_of_snoc, count_eq_snoc. unfold count_in.
    rewrite list_lookup_total_insert, histogram_of_length.
    destruct (decide (v = Z.of_nat k)) as [->|Hne].
    + rewrite Nat2Z.id, decide_True by done. rewrite IH by done. done.
    + rewrite decide_False by lia. rewrite IH by done. lia.
Qed.

Lemma count_le_step (t : Z) (values : list Z) :
  count_le t values = count_le (t - 1) values + count_eq t values.
Proof.
  unfold count_le, count_eq. induction values as [|v values IH]; [done|].
  rewrite !filter_cons. repeat case_decide; simpl in *; lia.
Qed.

Lemma count_le_negative (t : Z) (values : list Z) :
  t < 0 → Forall (λ v, 0 ≤ v) values → count_le t values = 0.
Proof.
  intros Ht Hnn. unfold count_le. induction Hnn as [|v values Hv _ IH]; [done|].
  rewrite filter_cons. case_decide; [lia | done].
Qed.

Lemma count_le_all (t : Z) (values : list Z) :
  Forall (λ v, v ≤ t) values → count_le t values = Z.of_nat (length values).
Proof.
  intros Hall. unfold count_le. induction Hall as [|v values Hv _ IH]; [done|].
  rewrite filter_cons. case_decide; simpl; lia.
Qed.

Lemma count_le_mono (t1 t2 : Z) (values : list Z) :
  t1 ≤ t2 → count_le t1 values ≤ count_le t2 values.
Proof.
  intros Hle. unfold count_le. induction values as [|v values IH]; [done|].
  rewrite !filter_cons. repeat case_decide; simpl; lia.
Qed.

(** The running sum of the walk after bin [t] is the number of pixels
    whose normalized value is at most [t]. *)
Lemma cumulative_count (values : list Z) (t : Z) :
  Forall (λ v, 0 ≤ v) values → -1 ≤ t < 256 →
  cumulative (histogram_of values) t = count_le t values.
Proof.
  intros Hnn Ht.
  assert (∃ n : nat, t = Z.of_nat n - 1) as [n ->] by (exists (Z.to_nat (t + 1)); lia).
  induction n as [|n IH].
  - simpl. rewrite cumulative_before. symmetry. by apply count_le_negative.
  - replace (Z.of_nat (S n) - 1) with (Z.of_nat n) in * by lia.
    rewrite cumulative_step, count_le_step, IH by lia.
    rewrite Nat2Z.id, histogram_lookup by (done || lia). done.
Qed.

Section Histogram.
Context (p : params) (b : buffers) (Hvalid : valid_input p b).

Lemma normalized_final_range :
  Forall (λ v, 0 ≤ v ≤ 255) (normalized_final p b).
Proof.
  unfold normalized_final. apply Forall_fmap, Forall_true.
  intros c. apply clamp_range.
Qed.

Lemma cumulative_final (t : Z) :
  -1 ≤ t < 256 →
  cumulative (histogram_final p b) t = count_le t (normalized_final p b).
Proof.
  intros Ht. apply cumulative_count; [|done].
  eapply Forall_impl; [apply normalized_final_range|]. simpl. lia.
Qed.

Lemma cumulative_final_total :
  cumulative (histogram_final p b) 255 = total_pixels p.
Proof.
  rewrite cumulative_final by lia. rewrite count_le_all.
  - by apply normalized_final_length.
  - eapply Forall_impl; [apply normalized_final_range|]. simpl. lia.
Qed.

(** The walk falls through exactly when the target exceeds the number
    of pixels. *)
Lemma fallback_iff (target : Z) :
  find_bin (histogram_final p b) target = None ↔ total_pixels p < target.
Proof.
  pose proof (find_bin_first (histogram_final p b) target) as Hfirst.
  pose proof cumulative_final_total as Htotal.
  destruct (find_bin (histogram_final p b) target) as [i|].
  - split; [done|]. intros Hlt. destruct Hfirst as (Hi & Hreach & _).
    rewrite cumulative_final in Hreach by lia.
    rewrite cumulative_final in Htotal by lia.
    pose proof (count_le_mono i 255 (normalized_final p b) ltac:(lia)). lia.
  - split; [|done]. intros _. specialize (Hfirst 255 ltac:(lia)). lia.
Qed.

End Histogram.

(** ** Threshold selection *)

(** C3 (amended). With the target the kernel computes (the
    single-precision product of the pixel count and the percentile,
    truncated), the running sum after bin [t] is the number of pixels
    whose normalized value is at most [t]; when some bin reaches the
    target the threshold is the first such bin, that is the smallest level
    [t] with at least [target] pixels at or below it, and otherwise it is
    255. *)
Theorem threshold_first_bin (p : params) (b : buffers) (target : Z) :
  valid_input p b →
  compute_target p = Some target →
  ∃ tr,
    run_stages p b = Some tr
    ∧ t_target tr = target
    ∧ (∀ t, 0 ≤ t < 256 →
         cumulative (t_histogram tr) t = count_le t (t_normalized tr))
    ∧ ((∃ i, 0 ≤ i < 256 ∧ target ≤ cumulative (t_histogram tr) i) →
         0 ≤ t_threshold tr < 256
         ∧ target ≤ count_le (t_threshold tr) (t_normalized tr)
         ∧ ∀ j, 0 ≤ j < t_threshold tr → count_le j (t_normalized tr) < target)
    ∧ ((∀ i, 0 ≤ i < 256 → cumulative (t_histogram tr) i < target) →
         t_threshold tr = 255).
Proof.
  intros Hvalid Ht. eexists. split; [by apply run_stages_run|]. simpl.
  split; [done|].
  split; [intros t Ht'; apply (cumulative_final p b); lia|].
  pose proof (find_bin_first (histogram_final p b) target) as Hfirst.
  unfold select_threshold.
  destruct (find_bin (histogram_final p b) target) as [i|]; simpl; split.
  - intros _. destruct Hfirst as (Hi & Hreach & Hbelow).
    split; [done|]. rewrite <- (cumulative_final p b) by lia. split; [done|].
    intros j Hj. rewrite <- (cumulative_final p b) by lia. apply Hbelow. lia.
  - intros Hnone. destruct Hfirst as (Hi & Hreach & _).
    specialize (Hnone i Hi). lia.
  - intros (i & Hi & Hreach). specialize (Hfirst i Hi). lia.
  - done.
Qed.

(** C3, as stated, fails in scenario B: the threshold selected is 0, and
    only 8 of the 9 pixels have a normalized value at or below it (none
    strictly below it), fewer than the fraction 0.9 of all pixels. *)
Lemma scenario_B_threshold_short_of_fraction :
  ∃ tr,
    run_stages scenario_B_params (scenario_B_buffers (replicate 9 0)) = Some tr
    ∧ t_threshold tr = 0
    ∧ count_le (t_threshold tr) (t_normalized tr) = 8
    ∧ Float32.fraction_le (threshold_percentile scenario_B_params)
        (count_le (t_threshold tr) (t_normalized tr))
        (total_pixels scenario_B_params) = false.
Proof. eexists. split; [vm_compute; reflexivity|]. by vm_compute. Qed.

(** The single-precision product can exceed the exact one: for 10 pixels
    and the [float] nearest to 0.9 the target is 9, although the exact
    product is below 9. *)
Example target_rounds_to_nearest :
  compute_target (zero_image_params 2 5 percentile_09) = Some 9
  ∧ Float32.floor_mul 10 percentile_09 = Some 8.
Proof. by vm_compute. Qed.

(** C4 (amended). The walk falls through to 255 exactly when the target
    exceeds the number of pixels; for a percentile at most 1 and at most
    [2^24] pixels (so that the pixel count is a binary32 number) the
    target does not exceed the pixel count and the walk finds a bin. *)
Theorem fallback_only_above_total (p : params) (b : buffers) (target : Z) :
  valid_input p b →
  compute_target p = Some target →
  ∃ tr,
    run_stages p b = Some tr
    ∧ (find_bin (t_histogram tr) (t_target tr) = None ↔ total_pixels p < t_target tr)
    ∧ (Float32.leb (threshold_percentile p) Float32.one = true →
       total_pixels p ≤ 2 ^ 24 →
       t_target tr ≤ total_pixels p
       ∧ is_Some (find_bin (t_histogram tr) (t_target tr))).
Proof.
  intros Hvalid Ht. eexists. split; [by apply run_stages_run|]. simpl.
  split; [by apply fallback_iff|]. intros Hle Hsmall.
  assert (target ≤ total_pixels p) as Hbound.
  { apply (Float32Facts.mul_of_int_le _ (threshold_percentile p)); [|done|done].
    pose proof (total_pixels_nonneg p b Hvalid). lia. }
  split; [done|].
  destruct (find_bin (histogram_final p b) target) as [i|] eqn:E; [by eexists|].
  apply (fallback_iff p b Hvalid) in E. lia.
Qed.

Lemma zero_image_valid (r c : Z) (q : Float32.t) :
  0 ≤ r → 0 ≤ c → r * c < 2 ^ 31 →
  valid_input (zero_image_params r c q) (zero_image_buffers r c).
Proof.
  intros Hr Hc Htotal.
  assert (Hbounds : offsets_in_bounds (zero_image_params r c q) [0]).
  { intros a k y x Ha Hk [Hy Hx]. unfold total_pixels.
    cbn [rows cols num_angles kernel_length margin_y margin_x zero_image_params] in *.
    assert (a = 0) as -> by lia. assert (k = 0) as -> by lia.
    change ([0] !!! Z.to_nat (0 * 1 + 0)) with 0. nia. }
  constructor; unfold total_pixels; cbn [rows cols num_angles
    kernel_length margin_y margin_x zero_image_params zero_image_buffers
    gy_data gx_data result_data h_offsets v_offsets]; try lia; try done.
  - rewrite length_replicate. nia.
  - rewrite length_replicate. nia.
  - rewrite length_replicate. nia.
  - apply Forall_replicate. lia.
  - apply Forall_replicate. lia.
Qed.

(** C4, as stated, fails for an all-zero image of 4099 x 4097 = 16793603
    pixels at percentile 1.0: the pixel count converts to the [float]
    16793604, the target is 16793604, no bin reaches it and the threshold
    is the fallback 255. *)
Lemma fallback_at_percentile_one :
  valid_input (zero_image_params 4099 4097 Float32.one) (zero_image_buffers 4099 4097)
  ∧ Float32.leb (threshold_percentile (zero_image_params 4099 4097 Float32.one))
      Float32.one = true
  ∧ ∃ tr,
      run_stages (zero_image_params 4099 4097 Float32.one)
        (zero_image_buffers 4099 4097) = Some tr
      ∧ t_target tr = 16793604
      ∧ total_pixels (zero_image_params 4099 4097 Float32.one) = 16793603
      ∧ find_bin (t_histogram tr) (t_target tr) = None
      ∧ t_threshold tr = 255.
Proof.
  assert (Hvalid : valid_input (zero_image_params 4099 4097 Float32.one)
                     (zero_image_buffers 4099 4097))
    by (apply zero_image_valid; lia).
  assert (Ht : compute_target (zero_image_params 4099 4097 Float32.one)
               = Some 16793604) by (by vm_compute).
  assert (Hnone : find_bin (histogram_final (zero_image_params 4099 4097 Float32.one)
                              (zero_image_buffers 4099 4097)) 16793604 = None).
  { apply (fallback_iff _ _ Hvalid). unfold total_pixels.
    cbn [rows cols zero_image_params]. lia. }
  split; [exact Hvalid|]. split; [by vm_compute|].
  rewrite (run_stages_run _ _ Hvalid _ Ht). eexists. split; [reflexivity|].
  cbn [t_target t_histogram t_threshold]. split; [reflexivity|].
  split; [by vm_compute|].
  split; [exact Hnone|]. unfold select_threshold. rewrite Hnone. reflexivity.
Qed.

(** ** Monotonicity in the percentile *)

Lemma with_percentile_valid (p : params) (b : buffers) (q : Float32.t) :
  valid_input p b → valid_input (with_percentile p q) b.
Proof. intros []. by constructor. Qed.

(** The stages before the target do not read the percentile. *)
Lemma normalized_final_percentile (p : params) (b : buffers) (q : Float32.t) :
  normalized_final (with_percentile p q) b = normalized_final p b.
Proof. reflexivity. Qed.

Lemma histogram_final_percentile (p : params) (b : buffers) (q : Float32.t) :
  histogram_final (with_percentile p q) b = histogram_final p b.
Proof. reflexivity. Qed.

Lemma count_255_binary_mono (thr1 thr2 : Z) (values : list Z) :
  thr1 ≤ thr2 →
  count_255 (binary_value thr2 <$> values) ≤ count_255 (binary_value thr1 <$> values).
Proof.
  intros Hle. unfold count_255. induction values as [|v values IH]; [done|].
  csimpl. rewrite !filter_cons.
  destruct (decide (binary_value thr2 v = 255)) as [E2|E2];
    destruct (decide (binary_value thr1 v = 255)) as [E1|E1]; simpl; try lia.
  unfold binary_value in E1, E2. repeat case_decide; lia.
Qed.

(** C9. For the same buffers and scalars, two percentiles [q1 <= q2]
    whose targets are defined give the same histogram, thresholds in the
    same order, and at most as many 255-valued output pixels for [q2] as
    for [q1]. *)
Theorem threshold_monotone (p : params) (b : buffers) (q1 q2 : Float32.t) :
  valid_input p b →
  Float32.leb q1 q2 = true →
  is_Some (compute_target (with_percentile p q1)) →
  is_Some (compute_target (with_percentile p q2)) →
  ∃ tr1 tr2,
    run_stages (with_percentile p q1) b = Some tr1
    ∧ run_stages (with_percentile p q2) b = Some tr2
    ∧ t_histogram tr1 = t_histogram tr2
    ∧ t_normalized tr1 = t_normalized tr2
    ∧ t_threshold tr1 ≤ t_threshold tr2
    ∧ count_255 (t_output tr2) ≤ count_255 (t_output tr1).
Proof.
  intros Hvalid Hle [t1 Ht1] [t2 Ht2].
  assert (t1 ≤ t2) as Ht.
  { apply (Float32Facts.mul_of_int_mono (total_pixels p) q1 q2); [|done..].
    apply (total_pixels_nonneg p b Hvalid). }
  exists (MkTrace (h_final p b) (v_final p b) (combined_final p b)
            (global_max_final p b) (normalized_final p b) (histogram_final p b)
            t1 (select_threshold (histogram_final p b) t1)
            (binary_value (select_threshold (histogram_final p b) t1)
               <$> normalized_final p b)),
         (MkTrace (h_final p b) (v_final p b) (combined_final p b)
            (global_max_final p b) (normalized_final p b) (histogram_final p b)
            t2 (select_threshold (histogram_final p b) t2)
            (binary_value (select_threshold (histogram_final p b) t2)
               <$> normalized_final p b)).
  split; [exact (run_stages_run _ b (with_percentile_valid p b q1 Hvalid) t1 Ht1)|].
  split; [exact (run_stages_run _ b (with_percentile_valid p b q2 Hvalid) t2 Ht2)|].
  cbn [t_histogram t_normalized t_threshold t_output].
  split; [done|]. split; [done|].
  pose proof (select_threshold_mono (histogram_final p b) t1 t2 Ht).
  split; [done|]. by apply count_255_binary_mono.
Qed.

(** ** The properties on the scenarios *)

Lemma offsets_in_bounds_checked (p : params) (offs : list Z) :
  offsets_in_bounds_check p offs = true → offsets_in_bounds p offs.
Proof.
  unfold offsets_in_bounds_check, offsets_in_bounds, interior.
  intros Hcheck a k y x Ha Hk [Hy Hx].
  rewrite forallb_forall in Hcheck.
  specialize (Hcheck a ltac:(apply list_elem_of_In, elem_of_seqZ; lia)).
  rewrite forallb_forall in Hcheck.
  specialize (Hcheck k ltac:(apply list_elem_of_In, elem_of_seqZ; lia)).
  rewrite forallb_forall in Hcheck.
  specialize (Hcheck y ltac:(apply list_elem_of_In, elem_of_seqZ; lia)).
  rewrite forallb_forall in Hcheck.
  specialize (Hcheck x ltac:(apply list_elem_of_In, elem_of_seqZ; lia)).
  simpl in Hcheck. apply andb_true_iff in Hcheck as [?%Z.leb_le ?%Z.ltb_lt]. lia.
Defined.

(** Discharges [valid_input] on a concrete input by evaluation. *)
Ltac valid_concrete :=
  constructor;
  [ by vm_compute | by vm_compute | by vm_compute | by vm_compute
  | by vm_compute | by vm_compute | by vm_compute
  | by vm_compute | by vm_compute | by vm_compute | by vm_compute | by vm_compute
  | repeat constructor; lia | repeat constructor; lia
  | apply offsets_in_bounds_checked; vm_compute; reflexivity
  | apply offsets_in_bounds_checked; vm_compute; reflexivity ].

Lemma scenario_B_valid (result : list Z) :
  length result = 9%nat → valid_input scenario_B_params (scenario_B_buffers result).
Proof.
  intros Hlen. constructor; try (by vm_compute);
    try (apply offsets_in_bounds_checked; vm_compute; reflexivity).
  - unfold scenario_B_buffers. cbn [result_data]. rewrite Hlen. by vm_compute.
  - repeat constructor; lia.
  - repeat constructor; lia.
Qed.

Lemma scenario_C_valid : valid_input scenario_C_params scenario_C_buffers.
Proof. valid_concrete. Qed.

(** Scenario C: the accumulators hold the larger of the two per-angle
    sums (130 of 130 and 110; 59 of 59 and 57), not their totals. *)
Example scenario_C_true_max :
  accumulate scenario_C_params scenario_C_buffers
  = Some ([0; 0; 0; 0; 130; 0; 0; 0; 0], [0; 0; 0; 0; 59; 0; 0; 0; 0])
  ∧ kernel_sum 2 (h_offsets scenario_C_buffers) (gy_data scenario_C_buffers) 0 4 = 130
  ∧ kernel_sum 2 (h_offsets scenario_C_buffers) (gy_data scenario_C_buffers) 1 4 = 110
  ∧ kernel_sum 2 (v_offsets scenario_C_buffers) (gx_data scenario_C_buffers) 0 4 = 59
  ∧ kernel_sum 2 (v_offsets scenario_C_buffers) (gx_data scenario_C_buffers) 1 4 = 57.
Proof. by vm_compute. Qed.

(** Scenario A: an all-zero 3x3 image gives an all-zero output for every
    percentile whose target is defined, in particular every percentile
    in [[0, 1]]. *)
Example scenario_A_uniform_zero (q : Float32.t) (hp : heap) :
  Float32.leb Float32.zero q = true → Float32.leb q Float32.one = true →
  directional_gradient_accumulate
    (with_percentile scenario_B_params q)
    (MkBuffers (replicate 9 0) (replicate 9 0) (replicate 9 0) [0] [0]) hp
  = Some (MkBuffers (replicate 9 0) (replicate 9 0) (replicate 9 0) [0] [0]).
Proof.
  intros Hq0 Hq1.
  destruct (Float32Facts.target_defined 9 q ltac:(lia) Hq0 Hq1) as (target & Ht & _).
  assert (Hvalid : valid_input (with_percentile scenario_B_params q)
            (MkBuffers (replicate 9 0) (replicate 9 0) (replicate 9 0) [0] [0]))
    by valid_concrete.
  destruct (h_response_ok hp && v_response_ok hp) eqn:Hheap.
  - apply andb_true_iff in Hheap as [Hh Hv].
    rewrite (success_output _ _ Hvalid hp target Ht Hh Hv).
    pose proof (select_threshold_range
      (histogram_final (with_percentile scenario_B_params q)
         (MkBuffers (replicate 9 0) (replicate 9 0) (replicate 9 0) [0] [0])) target)
      as Hthr.
    set (thr := select_threshold _ _) in *. clearbody thr.
    replace (normalized_final (with_percentile scenario_B_params q)
               (MkBuffers (replicate 9 0) (replicate 9 0) (replicate 9 0) [0] [0]))
      with (replicate 9 0) by (by vm_compute).
    unfold with_result. cbn [gy_data gx_data h_offsets v_offsets]. do 2 f_equal.
    unfold binary_value. simpl. by rewrite decide_False by lia.
  - by rewrite (failure_output _ _ Hvalid hp Hheap).
Qed.

(** C2 on scenario C. *)
Lemma accumulate_max_over_angles_scenario_C :
  let p := scenario_C_params in
  let b := scenario_C_buffers in
  valid_input p b
  ∧ 255 * kernel_length p < 2 ^ 31
  ∧ ∃ h v,
      accumulate p b = Some (h, v)
      ∧ (∀ y x, interior p y x →
           let j := y * cols p + x in
           let sum_h := λ a, kernel_sum (kernel_length p) (h_offsets b) (gy_data b) a j in
           let sum_v := λ a, kernel_sum (kernel_length p) (v_offsets b) (gx_data b) a j in
           (∀ a, 0 ≤ a < num_angles p →
              sum_h a ≤ h !!! Z.to_nat j ∧ sum_v a ≤ v !!! Z.to_nat j)
           ∧ (0 < num_angles p →
              (∃ a, 0 ≤ a < num_angles p ∧ h !!! Z.to_nat j = sum_h a)
              ∧ (∃ a, 0 ≤ a < num_angles p ∧ v !!! Z.to_nat j = sum_v a)))
      ∧ (∀ angles, angles ≡ₚ seqZ 0 (num_angles p) →
           accumulate_angles p b angles
             (calloc (total_pixels p), calloc (total_pixels p)) = Some (h, v)).
Proof.
  assert (Hv : valid_input scenario_C_params scenario_C_buffers) by valid_concrete.
  assert (Hk : 255 * kernel_length scenario_C_params < 2 ^ 31) by (by vm_compute).
  exact (conj Hv (conj Hk (accumulate_max_over_angles _ _ Hv Hk))).
Defined.

(** C3 on scenario B. *)
Lemma threshold_first_bin_scenario_B :
  let p := scenario_B_params in
  let b := scenario_B_buffers (replicate 9 0) in
  valid_input p b
  ∧ compute_target p = Some 8
  ∧ ∃ tr,
      run_stages p b = Some tr
      ∧ t_target tr = 8
      ∧ (∀ t, 0 ≤ t < 256 →
           cumulative (t_histogram tr) t = count_le t (t_normalized tr))
      ∧ ((∃ i, 0 ≤ i < 256 ∧ 8 ≤ cumulative (t_histogram tr) i) →
           0 ≤ t_threshold tr < 256
           ∧ 8 ≤ count_le (t_threshold tr) (t_normalized tr)
           ∧ ∀ j, 0 ≤ j < t_threshold tr → count_le j (t_normalized tr) < 8)
      ∧ ((∀ i, 0 ≤ i < 256 → cumulative (t_histogram tr) i < 8) →
           t_threshold tr = 255).
Proof.
  assert (Hv : valid_input scenario_B_params (scenario_B_buffers (replicate 9 0)))
    by valid_concrete.
  assert (Ht : compute_target scenario_B_params = Some 8) by (by vm_compute).
  exact (conj Hv (conj Ht (threshold_first_bin _ _ 8 Hv Ht))).
Defined.

(** C4 on scenario B. *)
Lemma fallback_only_above_total_scenario_B :
  let p := scenario_B_params in
  let b := scenario_B_buffers (replicate 9 0) in
  valid_input p b
  ∧ compute_target p = Some 8
  ∧ ∃ tr,
      run_stages p b = Some tr
      ∧ (find_bin (t_histogram tr) (t_target tr) = None
         ↔ total_pixels p < t_target tr)
      ∧ (Float32.leb (threshold_percentile p) Float32.one = true →
         total_pixels p ≤ 2 ^ 24 →
         t_target tr ≤ total_pixels p
         ∧ is_Some (find_bin (t_histogram tr) (t_target tr))).
Proof.
  assert (Hv : valid_input scenario_B_params (scenario_B_buffers (replicate 9 0)))
    by valid_concrete.
  assert (Ht : compute_target scenario_B_params = Some 8) by (by vm_compute).
  exact (conj Hv (conj Ht (fallback_only_above_total _ _ 8 Hv Ht))).
Defined.

(** C5 on scenario B with the second allocation failing. *)
Lemma allocation_failure_scenario_B :
  let p := scenario_B_params in
  let b := scenario_B_buffers [1; 2; 3; 4; 5; 6; 7; 8; 9] in
  let hp := MkHeap true false in
  (h_response_ok hp = false ∨ v_response_ok hp = false)
  ∧ 0 ≤ total_pixels p < 2 ^ 31
  ∧ Z.of_nat (length (result_data b)) = total_pixels p
  ∧ ∃ b',
      directional_gradient_accumulate p b hp = Some b'
      ∧ result_data b' = replicate (Z.to_nat (total_pixels p)) 0
      ∧ gy_data b' = gy_data b ∧ gx_data b' = gx_data b
      ∧ h_offsets b' = h_offsets b ∧ v_offsets b' = v_offsets b.
Proof.
  assert (Hf : h_response_ok (MkHeap true false) = false
               ∨ v_response_ok (MkHeap true false) = false) by (by right).
  assert (Ht : 0 ≤ total_pixels scenario_B_params < 2 ^ 31) by (by vm_compute).
  assert (Hl : Z.of_nat (length (result_data
                 (scenario_B_buffers [1; 2; 3; 4; 5; 6; 7; 8; 9])))
               = total_pixels scenario_B_params) by (by vm_compute).
  exact (conj Hf (conj Ht (conj Hl
           (allocation_failure_zeroes_output _ _ _ Hf Ht Hl)))).
Defined.

(** C6 on scenario C. *)
Lemma binarizer_rule_scenario_C :
  let p := scenario_C_params in
  let b := scenario_C_buffers in
  let hp := MkHeap true true in
  valid_input p b
  ∧ is_Some (compute_target p)
  ∧ ∃ out,
      directional_gradient_accumulate p b hp = Some (with_result b out)
      ∧ Z.of_nat (length out) = total_pixels p
      ∧ Forall (λ o, o = 0 ∨ o = 255) out
      ∧ (h_response_ok hp = true → v_response_ok hp = true →
         ∃ tr,
           run_stages p b = Some tr ∧ out = t_output tr
           ∧ ∀ j, 0 ≤ j < total_pixels p →
               out !!! Z.to_nat j
               = (if decide (t_normalized tr !!! Z.to_nat j > t_threshold tr)
                  then 255 else 0)
               ∧ (t_normalized tr !!! Z.to_nat j = t_threshold tr →
                  out !!! Z.to_nat j = 0)).
Proof.
  assert (Hv : valid_input scenario_C_params scenario_C_buffers) by valid_concrete.
  assert (Ht : is_Some (compute_target scenario_C_params))
    by (exists 8; by vm_compute).
  exact (conj Hv (conj Ht (binarizer_rule _ _ _ Hv Ht))).
Defined.

(** C7 on scenario C. *)
Lemma margin_pixels_zero_scenario_C :
  let p := scenario_C_params in
  let b := scenario_C_buffers in
  let hp := MkHeap true true in
  valid_input p b
  ∧ is_Some (compute_target p)
  ∧ ∃ out,
      directional_gradient_accumulate p b hp = Some (with_result b out)
      ∧ ∀ y x, 0 ≤ y < rows p → 0 ≤ x < cols p → ¬ interior p y x →
          out !!! Z.to_nat (y * cols p + x) = 0.
Proof.
  assert (Hv : valid_input scenario_C_params scenario_C_buffers) by valid_concrete.
  assert (Ht : is_Some (compute_target scenario_C_params))
    by (exists 8; by vm_compute).
  exact (conj Hv (conj Ht (margin_pixels_zero _ _ _ Hv Ht))).
Defined.

(** C8 on the all-zero 3x3 image. *)
Lemma global_max_at_least_one_zero_image :
  let p := scenario_B_params in
  let b := MkBuffers (replicate 9 0) (replicate 9 0) (replicate 9 0) [0] [0] in
  valid_input p b
  ∧ ∃ h v combined global_max,
      accumulate p b = Some (h, v)
      ∧ combine p h v = Some (combined, global_max)
      ∧ 1 ≤ global_max
      ∧ (∀ hi, is_Some (scale hi global_max))
      ∧ is_Some (normalize p combined global_max (result_data b)).
Proof.
  assert (Hv : valid_input scenario_B_params
                 (MkBuffers (replicate 9 0) (replicate 9 0) (replicate 9 0) [0] [0]))
    by valid_concrete.
  exact (conj Hv (global_max_at_least_one _ _ Hv)).
Defined.

(** C9 on scenario B with the percentiles 0.5 and 0.9. *)
Lemma threshold_monotone_scenario_B :
  let p := scenario_B_params in
  let b := scenario_B_buffers (replicate 9 0) in
  let q1 := Float32.Fin 1 (-1) in
  let q2 := percentile_09 in
  valid_input p b
  ∧ Float32.leb q1 q2 = true
  ∧ is_Some (compute_target (with_percentile p q1))
  ∧ is_Some (compute_target (with_percentile p q2))
  ∧ ∃ tr1 tr2,
      run_stages (with_percentile p q1) b = Some tr1
      ∧ run_stages (with_percentile p q2) b = Some tr2
      ∧ t_histogram tr1 = t_histogram tr2
      ∧ t_normalized tr1 = t_normalized tr2
      ∧ t_threshold tr1 ≤ t_threshold tr2
      ∧ count_255 (t_output tr2) ≤ count_255 (t_output tr1).
Proof.
  assert (Hv : valid_input scenario_B_params (scenario_B_buffers (replicate 9 0)))
    by valid_concrete.
  assert (Hle : Float32.leb (Float32.Fin 1 (-1)) percentile_09 = true)
    by (by vm_compute).
  assert (H1 : is_Some (compute_target
                 (with_percentile scenario_B_params (Float32.Fin 1 (-1)))))
    by (exists 4; by vm_compute).
  assert (H2 : is_Some (compute_target
                 (with_percentile scenario_B_params percentile_09)))
    by (exists 8; by vm_compute).
  exact (conj Hv (conj Hle (conj H1 (conj H2
           (threshold_monotone _ _ _ _ Hv Hle H1 H2))))).
Defined.

(** C10 on scenario C. *)
Lemma clamps_never_fire_scenario_C :
  let p := scenario_C_params in
  let b := scenario_C_buffers in
  valid_input p b
  ∧ ∃ h v combined global_max,
      accumulate p b = Some (h, v)
      ∧ combine p h v = Some (combined, global_max)
      ∧ (∀ j, 0 ≤ j < total_pixels p →
           0 ≤ combined !!! Z.to_nat j ≤ global_max
           ∧ ∃ n, scale (combined !!! Z.to_nat j) global_max = Some n
                  ∧ n = (combined !!! Z.to_nat j * 255) `div` global_max
                  ∧ 0 ≤ n ≤ 255 ∧ clamp n = n)
      ∧ is_Some (normalize p combined global_max (result_data b))
      ∧ normalize_unclamped p combined global_max (result_data b)
        = normalize p combined global_max (result_data b).
Proof.
  assert (Hv : valid_input scenario_C_params scenario_C_buffers) by valid_concrete.
  exact (conj Hv (clamps_never_fire _ _ Hv)).
Defined.

(** ** Checks of the single-precision model *)

(** [percentile_09] is a binary32 number, lies below 9/10, and 9/10 is
    closer to it than to the next binary32 number. *)
Example percentile_09_nearest :
  Float32.is_binary32 percentile_09 = true
  ∧ Float32.fraction_le percentile_09 9 10 = true
  ∧ Float32.fraction_le (Float32.Fin 15099495 (-24)) 9 10 = false
  ∧ 2 * 9 * 2 ^ 24 < (15099494 + 15099495) * 10.
Proof. by vm_compute. Qed.

(** Conversions of pixel counts: exact up to [2^24], ties to even above,
    and a product that no longer fits an [int] just below [2^31]. *)
Example pixel_count_conversions :
  Float32.of_int 16777216 = Float32.Fin 8388608 1
  ∧ Float32.of_int 16777217 = Float32.Fin 8388608 1
  ∧ Float32.of_int 16777219 = Float32.Fin 8388610 1
  ∧ Float32.to_int (Float32.mul (Float32.of_int 9) percentile_09) = Some 8
  ∧ compute_target (zero_image_params 33554431 64 Float32.one) = None.
Proof. by vm_compute. Qed.

(** * Further properties of the kernel *)

(** ** Absence of undefined behaviour *)

(** X1. For valid input, a percentile in [[0, 1]] and at most
    [2^31 - 65] pixels, no stage runs into undefined behaviour: every
    stage returns, the target lies in [[0, 2^31 - 128]] (and does not
    exceed the pixel count when there are at most [2^24] pixels), and the
    call returns with an output of [rows * cols] bytes whether or not the
    allocations succeed. *)
Theorem kernel_defined_on_unit_percentiles (p : params) (b : buffers) :
  valid_input p b →
  total_pixels p ≤ 2 ^ 31 - 65 →
  Float32.leb Float32.zero (threshold_percentile p) = true →
  Float32.leb (threshold_percentile p) Float32.one = true →
  (∃ tr,
     run_stages p b = Some tr
     ∧ 0 ≤ t_target tr ≤ 2 ^ 31 - 128
     ∧ (total_pixels p ≤ 2 ^ 24 → t_target tr ≤ total_pixels p))
  ∧ ∀ hp, ∃ out,
      directional_gradient_accumulate p b hp = Some (with_result b out)
      ∧ Z.of_nat (length out) = total_pixels p.
Proof.
  intros Hvalid Hsize Hq0 Hq1.
  pose proof (total_pixels_nonneg p b Hvalid) as Hnn.
  destruct (Float32Facts.target_defined_wide (total_pixels p) (threshold_percentile p)
              ltac:(lia) Hq0 Hq1) as (target & Ht & Hrange).
  split.
  - eexists. split; [by apply run_stages_run|]. simpl. split; [done|].
    intros Hsmall.
    apply (Float32Facts.mul_of_int_le _ (threshold_percentile p)); [lia | done | done].
  - intros hp. destruct (h_response_ok hp && v_response_ok hp) eqn:Hheap.
    + apply andb_true_iff in Hheap as [Hh Hv].
      eexists. split; [by apply (success_output p b Hvalid hp target)|].
      rewrite length_fmap. by apply normalized_final_length.
    + eexists. split; [by apply failure_output|].
      rewrite length_replicate. lia.
Qed.

(** ** What the output depends on *)

Lemma with_result_valid (p : params) (b : buffers) (r : list Z) :
  valid_input p b → Z.of_nat (length r) = total_pixels p →
  valid_input p (with_result b r).
Proof. intros [] Hr. by constructor. Qed.

(** X2. The output does not depend on what the output buffer held
    before the call: two calls that differ only in the prior content of
    [result_data] write the same bytes. *)
Theorem output_ignores_prior_result (p : params) (b : buffers) (r : list Z) (hp : heap) :
  valid_input p b →
  Z.of_nat (length r) = total_pixels p →
  is_Some (compute_target p) →
  ∃ out,
    directional_gradient_accumulate p b hp = Some (with_result b out)
    ∧ directional_gradient_accumulate p (with_result b r) hp
      = Some (with_result b out).
Proof.
  intros Hvalid Hr [target Ht].
  pose proof (with_result_valid p b r Hvalid Hr) as Hvalid'.
  destruct (h_response_ok hp && v_response_ok hp) eqn:Hheap.
  - apply andb_true_iff in Hheap as [Hh Hv].
    eexists. split; [by apply (success_output p b Hvalid hp target)|].
    by rewrite (success_output p _ Hvalid' hp target Ht Hh Hv).
  - eexists. split; [by apply failure_output|].
    by rewrite (failure_output p _ Hvalid' hp Hheap).
Qed.

Lemma swap_channels_valid (p : params) (b : buffers) :
  valid_input p b → valid_input p (swap_channels b).
Proof. intros []. by constructor. Qed.

Lemma combined_value_comm (hi vi : Z) : combined_value hi vi = combined_value vi hi.
Proof. rewrite !combined_value_max. lia. Qed.

Lemma zip_with_combined_comm (h v : list Z) :
  zip_with combined_value h v = zip_with combined_value v h.
Proof.
  revert v. induction h as [|x h IH]; intros [|y v]; simpl; [done..|].
  by rewrite combined_value_comm, IH.
Qed.

Lemma combined_final_swap (p : params) (b : buffers) :
  combined_final p (swap_channels b) = combined_final p b.
Proof. unfold combined_final. apply zip_with_combined_comm. Qed.

(** X3. Exchanging the two channels (each gradient image together with
    its offset table) does not change the output: the combined response
    is the larger of the two channel responses. *)
Theorem output_symmetric_in_channels (p : params) (b : buffers) (hp : heap) :
  valid_input p b →
  is_Some (compute_target p) →
  ∃ out,
    directional_gradient_accumulate p b hp = Some (with_result b out)
    ∧ directional_gradient_accumulate p (swap_channels b) hp
      = Some (with_result (swap_channels b) out).
Proof.
  intros Hvalid [target Ht].
  pose proof (swap_channels_valid p b Hvalid) as Hvalid'.
  destruct (h_response_ok hp && v_response_ok hp) eqn:Hheap.
  - apply andb_true_iff in Hheap as [Hh Hv].
    eexists. split; [by apply (success_output p b Hvalid hp target)|].
    rewrite (success_output p _ Hvalid' hp target Ht Hh Hv).
    unfold histogram_final, normalized_final, global_max_final.
    by rewrite combined_final_swap.
  - eexists. split; [by apply failure_output|].
    by rewrite (failure_output p _ Hvalid' hp Hheap).
Qed.

(** ** Inputs without any response *)

Lemma raise_zeros (n : nat) (us : list (Z * Z)) :
  (∀ u, u ∈ us → u.2 ≤ 0) → foldl raise (replicate n 0) us = replicate n 0.
Proof.
  induction us as [|u us IH]; intros Hus; simpl; [done|].
  assert (raise (replicate n 0) u = replicate n 0) as ->.
  { unfold raise. rewrite <- (list_alter_id id (replicate n 0) (Z.to_nat u.1)) at 2
      by done.
    apply list_alter_ext; [|done]. intros x Hx. apply lookup_replicate in Hx as [-> _].
    assert (u.2 ≤ 0) by (apply Hus; left). simpl. lia. }
  apply IH. intros u' Hu'. apply Hus. by right.
Qed.

Lemma raise_max_zeros (n : nat) : foldl raise_max 1 (replicate n 0) = 1.
Proof.
  induction n as [|n IH]; [done|]. cbn [replicate foldl].
  by change (raise_max 1 0) with 1.
Qed.

Lemma binary_value_below (threshold_val : Z) (values : list Z) :
  Forall (λ v, v ≤ threshold_val) values →
  binary_value threshold_val <$> values = replicate (length values) 0.
Proof.
  induction 1 as [|v values Hv _ IH]; csimpl; [done|].
  rewrite IH. unfold binary_value. by rewrite decide_False by lia.
Qed.

(** When no update raises an accumulator, the output is all zero. *)
Lemma no_response_zero_output (p : params) (b : buffers) (hp : heap) :
  valid_input p b →
  is_Some (compute_target p) →
  (∀ u, u ∈ updates p (h_offsets b) (gy_data b) (seqZ 0 (num_angles p)) → u.2 ≤ 0) →
  (∀ u, u ∈ updates p (v_offsets b) (gx_data b) (seqZ 0 (num_angles p)) → u.2 ≤ 0) →
  directional_gradient_accumulate p b hp
  = Some (with_result b (replicate (Z.to_nat (total_pixels p)) 0)).
Proof.
  intros Hvalid [target Ht] Hh Hv.
  destruct (h_response_ok hp && v_response_ok hp) eqn:Hheap;
    [|by apply failure_output].
  apply andb_true_iff in Hheap as [Hhok Hvok].
  rewrite (success_output p b Hvalid hp target Ht Hhok Hvok). do 2 f_equal.
  pose proof (select_threshold_range (histogram_final p b) target) as Hthr.
  set (thr := select_threshold (histogram_final p b) target) in *. clearbody thr.
  unfold normalized_final, global_max_final, combined_final, h_final, v_final, calloc.
  rewrite !raise_zeros by done.
  rewrite zip_with_replicate, raise_max_zeros, fmap_replicate, fmap_replicate.
  f_equal. change (normalized_value 1 (combined_value 0 0)) with 0.
  unfold binary_value. by rewrite decide_False by lia.
Qed.

(** X4. In a degenerate configuration (no angle, no tap, or margins
    that leave no interior pixel) the output is all zero, whatever the
    gradient images hold; it is the same output as after a failed
    allocation. *)
Theorem degenerate_configuration_zero_output (p : params) (b : buffers) (hp : heap) :
  valid_input p b →
  is_Some (compute_target p) →
  num_angles p = 0 ∨ kernel_length p = 0
  ∨ rows p ≤ 2 * margin_y p ∨ cols p ≤ 2 * margin_x p →
  directional_gradient_accumulate p b hp
  = Some (with_result b (replicate (Z.to_nat (total_pixels p)) 0)).
Proof.
  intros Hvalid Ht Hdeg.
  assert (Hzero : ∀ offs data u,
    u ∈ updates p offs data (seqZ 0 (num_angles p)) → u.2 ≤ 0).
  { intros offs data [j s] (a & y & x & Ha & [Hy Hx] & -> & ->)%elem_of_updates.
    apply elem_of_seqZ in Ha. simpl.
    destruct Hdeg as [Hn | [Hk | [Hr | Hc]]]; [lia | | lia | lia].
    unfold tap_sum. rewrite Hk, seqZ_nil by lia. done. }
  apply no_response_zero_output; [done | done | apply Hzero | apply Hzero].
Qed.

Lemma wrapped_sum_zero (g : Z → Z) (ks : list Z) :
  (∀ k, k ∈ ks → g k = 0) → foldl (λ sum k, wrap_int32 (sum + g k)) 0 ks = 0.
Proof.
  induction ks as [|k ks IH]; intros Hg; simpl; [done|].
  rewrite (Hg k) by left. change (wrap_int32 (0 + 0)) with 0.
  apply IH. intros k' Hk'. apply Hg. by right.
Qed.

(** X5. When both gradient images are entirely zero the output is all
    zero, for every valid configuration of angles, offsets and margins
    and every percentile whose target is defined. *)
Theorem zero_gradients_zero_output (p : params) (b : buffers) (hp : heap) :
  valid_input p b →
  is_Some (compute_target p) →
  Forall (λ s, s = 0) (gy_data b) →
  Forall (λ s, s = 0) (gx_data b) →
  directional_gradient_accumulate p b hp
  = Some (with_result b (replicate (Z.to_nat (total_pixels p)) 0)).
Proof.
  intros Hvalid Ht Hgy Hgx.
  assert (Hzero : ∀ offs data,
    offsets_in_bounds p offs → Z.of_nat (length data) = total_pixels p →
    Forall (λ s, s = 0) data →
    ∀ u, u ∈ updates p offs data (seqZ 0 (num_angles p)) → u.2 ≤ 0).
  { intros offs data Hoffs Hlen Hdata [j s]
      (a & y & x & Ha & Hyx & -> & ->)%elem_of_updates.
    apply elem_of_seqZ in Ha. simpl. unfold tap_sum.
    rewrite (wrapped_sum_zero (λ k, data !!! Z.to_nat
               (y * cols p + x + offs !!! Z.to_nat (a * kernel_length p + k))));
      [done|].
    intros k Hk%elem_of_seqZ.
    apply (Forall_lookup_total_1 (λ s, s = 0) data); [done|].
    specialize (Hoffs a k y x ltac:(lia) ltac:(lia) Hyx). lia. }
  destruct Hvalid as [? ? ? ? ? ? ? ? ? ? ? ? ? ? ? ?] eqn:E. clear E.
  apply no_response_zero_output; [by constructor | done | by apply Hzero..].
Qed.

(** X6. When the target exceeds the number of pixels the walk falls
    through, the threshold is 255 and the output is all zero: nothing
    passes. *)
Theorem target_above_total_zero_output (p : params) (b : buffers) (hp : heap)
    (target : Z) :
  valid_input p b →
  compute_target p = Some target →
  total_pixels p < target →
  select_threshold (histogram_final p b) target = 255
  ∧ directional_gradient_accumulate p b hp
    = Some (with_result b (replicate (Z.to_nat (total_pixels p)) 0)).
Proof.
  intros Hvalid Ht Hlt.
  assert (select_threshold (histogram_final p b) target = 255) as Hthr.
  { unfold select_threshold. by rewrite (proj2 (fallback_iff p b Hvalid target) Hlt). }
  split; [done|].
  destruct (h_response_ok hp && v_response_ok hp) eqn:Hheap;
    [|by apply failure_output].
  apply andb_true_iff in Hheap as [Hhok Hvok].
  rewrite (success_output p b Hvalid hp target Ht Hhok Hvok), Hthr. do 2 f_equal.
  rewrite binary_value_below.
  - f_equal. pose proof (normalized_final_length p b Hvalid). lia.
  - eapply Forall_impl; [apply normalized_final_range|]. simpl. lia.
Qed.

(** ** The normalized image *)

Lemma raise_max_attained (l : list Z) (g : Z) :
  foldl raise_max g l = g ∨ foldl raise_max g l ∈ l.
Proof.
  revert g. induction l as [|c l IH]; intros g; simpl; [by left|].
  destruct (IH (raise_max g c)) as [E|Hin]; [|right; by right].
  rewrite E. unfold raise_max. case_decide; [right; left | by left].
Qed.

Lemma count_eq_pos (k : Z) (values : list Z) : k ∈ values → 1 ≤ count_eq k values.
Proof.
  unfold count_eq. induction values as [|v values IH]; intros Hin.
  - by apply elem_of_nil in Hin.
  - rewrite filter_cons. apply elem_of_cons in Hin as [->|Hin].
    + rewrite decide_True by done. simpl. lia.
    + specialize (IH Hin). case_decide; simpl; lia.
Qed.

Lemma normalized_value_peak (global_max : Z) :
  1 ≤ global_max → normalized_value global_max global_max = 255.
Proof.
  intros Hg. unfold normalized_value. rewrite Z.mul_comm, Z.quot_mul by lia.
  by vm_compute.
Qed.

(** X7. The normalisation maps the peak to exactly 255: when some
    combined response is positive, [global_max] is the combined response
    of some pixel, that pixel's normalized value is 255 and histogram bin
    255 is not empty; when every combined response is zero, [global_max]
    is the floor 1 and every normalized value is 0. *)
Theorem peak_normalizes_to_255 (p : params) (b : buffers) :
  valid_input p b →
  ∃ h v combined global_max normalized histogram,
    accumulate p b = Some (h, v)
    ∧ combine p h v = Some (combined, global_max)
    ∧ normalize p combined global_max (result_data b) = Some (normalized, histogram)
    ∧ ((∃ j, 0 ≤ j < total_pixels p ∧ 0 < combined !!! Z.to_nat j) →
       ∃ j, 0 ≤ j < total_pixels p
            ∧ combined !!! Z.to_nat j = global_max
            ∧ normalized !!! Z.to_nat j = 255
            ∧ 1 ≤ histogram !!! 255%nat)
    ∧ ((∀ j, 0 ≤ j < total_pixels p → combined !!! Z.to_nat j = 0) →
       global_max = 1
       ∧ ∀ j, 0 ≤ j < total_pixels p → normalized !!! Z.to_nat j = 0).
Proof.
  intros Hvalid.
  exists (h_final p b), (v_final p b), (combined_final p b), (global_max_final p b),
    (normalized_final p b), (histogram_final p b).
  pose proof (global_max_final_pos p b) as Hpos.
  pose proof (combined_final_length p b Hvalid) as Hclen.
  pose proof (normalized_final_length p b Hvalid) as Hnlen.
  split; [by apply accumulate_run|].
  split; [apply combine_run; [by apply h_final_length | by apply v_final_length]|].
  split; [apply normalize_run; [done | by destruct Hvalid | lia]|].
  assert (Hattained : global_max_final p b = 1
                      ∨ ∃ j, 0 ≤ j < total_pixels p
                             ∧ combined_final p b !!! Z.to_nat j = global_max_final p b).
  { destruct (raise_max_attained (combined_final p b) 1) as [E|Hin]; [by left|].
    right. apply list_elem_of_lookup_total in Hin as (i & Hi & Ei).
    exists (Z.of_nat i). rewrite Nat2Z.id. split; [lia | done]. }
  split.
  - intros (j0 & Hj0 & Hpos0).
    assert (∃ j, 0 ≤ j < total_pixels p
                 ∧ combined_final p b !!! Z.to_nat j = global_max_final p b)
      as (j & Hj & Ej).
    { destruct Hattained as [E1|?]; [|done]. exists j0. split; [done|].
      pose proof (combined_final_range p b Hvalid j0 Hj0). lia. }
    exists j. split; [done|]. split; [done|].
    assert (normalized_final p b !!! Z.to_nat j = 255) as En.
    { unfold normalized_final.
      rewrite (list_lookup_total_fmap (normalized_value _)) by lia.
      rewrite Ej. by apply normalized_value_peak. }
    split; [done|]. unfold histogram_final.
    rewrite histogram_lookup;
      [| lia | eapply Forall_impl; [apply normalized_final_range|]; simpl; lia].
    change (Z.of_nat 255) with 255. apply count_eq_pos. rewrite <- En.
    apply list_elem_of_lookup_total_2. lia.
  - intros Hzero.
    assert (global_max_final p b = 1) as Eg.
    { destruct Hattained as [?|(j & Hj & Ej)]; [done|].
      rewrite Hzero in Ej by done. lia. }
    split; [done|]. intros j Hj. unfold normalized_final.
    rewrite (list_lookup_total_fmap (normalized_value _)) by lia.
    rewrite Hzero, Eg by done. done.
Qed.

(** X8. The normalisation preserves the order of the combined
    responses, and the output is an upper level set of them: a pixel
    whose combined response is at least that of a 255-valued pixel is
    255-valued too. *)
Theorem output_is_upper_level_set (p : params) (b : buffers) (target : Z) :
  valid_input p b →
  compute_target p = Some target →
  ∃ tr,
    run_stages p b = Some tr
    ∧ ∀ i j, 0 ≤ i < total_pixels p → 0 ≤ j < total_pixels p →
        t_combined tr !!! Z.to_nat i ≤ t_combined tr !!! Z.to_nat j →
        t_normalized tr !!! Z.to_nat i ≤ t_normalized tr !!! Z.to_nat j
        ∧ (t_output tr !!! Z.to_nat i = 255 → t_output tr !!! Z.to_nat j = 255).
Proof.
  intros Hvalid Ht. eexists. split; [by apply run_stages_run|]. simpl.
  intros i j Hi Hj Hle.
  pose proof (global_max_final_pos p b) as Hpos.
  pose proof (combined_final_length p b Hvalid) as Hclen.
  pose proof (normalized_final_length p b Hvalid) as Hnlen.
  assert (Hn : normalized_final p b !!! Z.to_nat i ≤ normalized_final p b !!! Z.to_nat j).
  { unfold normalized_final.
    rewrite !(list_lookup_total_fmap (normalized_value _)) by lia.
    pose proof (combined_final_range p b Hvalid i Hi) as Hci.
    pose proof (combined_final_range p b Hvalid j Hj) as Hcj.
    unfold normalized_value.
    destruct (scale_in_range _ _ Hci Hpos) as [Ei Hri].
    destruct (scale_in_range _ _ Hcj Hpos) as [Ej Hrj].
    unfold scale in Ei, Ej. rewrite decide_False in Ei, Ej by lia.
    injection Ei as ->. injection Ej as ->. rewrite !clamp_id by done.
    apply Z.div_le_mono; lia. }
  split; [done|].
  rewrite !(list_lookup_total_fmap (binary_value _)) by lia.
  unfold binary_value. repeat case_decide; (done || lia).
Qed.

(** ** The histogram and the threshold *)

(** X9. The histogram has 256 bins, bin [k] holds the number of pixels
    whose normalized value is [k], and the bins add up to the number of
    pixels: every pixel is counted exactly once. *)
Theorem histogram_counts_every_pixel (p : params) (b : buffers) :
  valid_input p b →
  ∃ h v combined global_max normalized histogram,
    accumulate p b = Some (h, v)
    ∧ combine p h v = Some (combined, global_max)
    ∧ normalize p combined global_max (result_data b) = Some (normalized, histogram)
    ∧ length histogram = 256%nat
    ∧ (∀ k, 0 ≤ k < 256 → histogram !!! Z.to_nat k = count_eq k normalized)
    ∧ cumulative histogram 255 = total_pixels p.
Proof.
  intros Hvalid.
  exists (h_final p b), (v_final p b), (combined_final p b), (global_max_final p b),
    (normalized_final p b), (histogram_final p b).
  pose proof (global_max_final_pos p b) as Hpos.
  split; [by apply accumulate_run|].
  split; [apply combine_run; [by apply h_final_length | by apply v_final_length]|].
  split; [apply normalize_run;
            [by apply combined_final_length | by destruct Hvalid | lia]|].
  split; [apply histogram_of_length|].
  split; [|by apply cumulative_final_total].
  intros k Hk. unfold histogram_final. rewrite histogram_lookup; [|lia|].
  - f_equal. lia.
  - eapply Forall_impl; [apply normalized_final_range|]. simpl. lia.
Qed.

Lemma count_255_binary (threshold_val : Z) (values : list Z) :
  count_255 (binary_value threshold_val <$> values)
  = Z.of_nat (length values) - count_le threshold_val values.
Proof.
  unfold count_255, count_le. induction values as [|v values IH]; [done|].
  csimpl. rewrite !filter_cons.
  destruct (decide (binary_value threshold_val v = 255)) as [E|E];
    destruct (decide (v ≤ threshold_val)) as [Hv|Hv]; simpl;
    unfold binary_value in E; case_decide; lia.
Qed.

(** X10. The number of 255-valued output pixels is at most the number of
    pixels minus the target (and zero when the target exceeds the number
    of pixels). *)
Theorem foreground_count_bound (p : params) (b : buffers) (target : Z) :
  valid_input p b →
  compute_target p = Some target →
  ∃ tr,
    run_stages p b = Some tr
    ∧ count_255 (t_output tr) ≤ Z.max 0 (total_pixels p - target).
Proof.
  intros Hvalid Ht. eexists. split; [by apply run_stages_run|]. simpl.
  rewrite count_255_binary.
  pose proof (normalized_final_length p b Hvalid) as Hnlen.
  pose proof (find_bin_first (histogram_final p b) target) as Hfirst.
  unfold select_threshold.
  destruct (find_bin (histogram_final p b) target) as [i|] eqn:E; simpl.
  - destruct Hfirst as (Hi & Hreach & _).
    rewrite (cumulative_final p b) in Hreach by lia. lia.
  - rewrite count_le_all; [lia|].
    eapply Forall_impl; [apply normalized_final_range|]. simpl. lia.
Qed.

(** A percentile at most zero gives a target at most zero. *)
Lemma target_nonpositive (n : Z) (q : Float32.t) (v : Z) :
  0 ≤ n → Float32.leb q Float32.zero = true →
  Float32.to_int (Float32.mul (Float32.of_int n) q) = Some v → v ≤ 0.
Proof.
  intros Hn Hq Hv.
  apply (Float32Facts.mul_of_int_mono n q Float32.zero v 0 Hn Hq Hv).
  destruct (Float32.of_int n) as [|neg|N E].
  - by destruct q.
  - destruct q as [| |m e]; simpl in Hv; [done | done |]. by destruct (m =? 0).
  - unfold Float32.zero. simpl. by rewrite Z.mul_0_r.
Qed.

(** X11. For a percentile at most zero the threshold is 0, and a pixel
    is 255 in the output exactly when its normalized value is positive,
    that is when 255 times its combined response reaches [global_max]. *)
Theorem nonpositive_percentile_keeps_all_responses (p : params) (b : buffers)
    (target : Z) :
  valid_input p b →
  Float32.leb (threshold_percentile p) Float32.zero = true →
  compute_target p = Some target →
  ∃ tr,
    run_stages p b = Some tr
    ∧ t_threshold tr = 0
    ∧ ∀ j, 0 ≤ j < total_pixels p →
        (t_output tr !!! Z.to_nat j = 255 ↔ 0 < t_normalized tr !!! Z.to_nat j)
        ∧ (0 < t_normalized tr !!! Z.to_nat j
           ↔ t_global_max tr ≤ 255 * t_combined tr !!! Z.to_nat j).
Proof.
  intros Hvalid Hq Ht. eexists. split; [by apply run_stages_run|]. simpl.
  pose proof (total_pixels_nonneg p b Hvalid) as Hnn.
  pose proof (target_nonpositive _ _ _ Hnn Hq Ht) as Htarget.
  pose proof (global_max_final_pos p b) as Hpos.
  pose proof (combined_final_length p b Hvalid) as Hclen.
  pose proof (normalized_final_length p b Hvalid) as Hnlen.
  assert (select_threshold (histogram_final p b) target = 0) as Hthr.
  { unfold select_threshold.
    pose proof (find_bin_first (histogram_final p b) target) as Hfirst.
    assert (0 ≤ cumulative (histogram_final p b) 0) as H0.
    { rewrite (cumulative_final p b) by lia. unfold count_le. lia. }
    destruct (find_bin (histogram_final p b) target) as [i|]; simpl.
    - destruct Hfirst as (Hi & _ & Hbelow).
      destruct (decide (i = 0)) as [->|Hne]; [done|].
      specialize (Hbelow 0 ltac:(lia)). lia.
    - specialize (Hfirst 0 ltac:(lia)). lia. }
  split; [done|]. intros j Hj. rewrite Hthr.
  rewrite (list_lookup_total_fmap (binary_value _)) by lia.
  split.
  - unfold binary_value. case_decide; split; (done || lia).
  - unfold normalized_final.
    rewrite (list_lookup_total_fmap (normalized_value _)) by lia.
    pose proof (combined_final_range p b Hvalid j Hj) as Hc.
    destruct (scale_in_range _ _ Hc Hpos) as [E Hr].
    unfold normalized_value. unfold scale in E. rewrite decide_False in E by lia.
    injection E as ->. rewrite clamp_id by done.
    set (c := combined_final p b !!! Z.to_nat j) in *.
    set (g := global_max_final p b) in *. split.
    + intros Hdiv. destruct (decide (g ≤ 255 * c)); [done|].
      rewrite Z.div_small in Hdiv by lia. lia.
    + intros Hge. apply Z.div_str_pos. lia.
Qed.

(** ** Range of the accumulators *)

Lemma wrap_int32_range (z : Z) : - 2 ^ 31 ≤ wrap_int32 z < 2 ^ 31.
Proof.
  unfold wrap_int32. pose proof (Z.mod_pos_bound (z + 2 ^ 31) (2 ^ 32) ltac:(lia)). lia.
Qed.

Lemma tap_sum_int32 (K : Z) (offs data : list Z) (a base_idx : Z) :
  - 2 ^ 31 ≤ tap_sum K offs data a base_idx < 2 ^ 31.
Proof.
  unfold tap_sum. destruct (seqZ 0 K) as [|k ks] using rev_ind; [simpl; lia|].
  rewrite foldl_app. simpl. apply wrap_int32_range.
Qed.

Lemma plain_sum_upper (g : Z → Z) (ks : list Z) :
  (∀ k, k ∈ ks → g k < 256) → foldr Z.add 0 (g <$> ks) ≤ 255 * Z.of_nat (length ks).
Proof.
  induction ks as [|k ks IH]; intros Hg; csimpl; [lia|].
  assert (g k < 256) by (apply Hg; left).
  assert (foldr Z.add 0 (g <$> ks) ≤ 255 * Z.of_nat (length ks))
    by (apply IH; intros; apply Hg; by right).
  lia.
Qed.

(** X12. The accumulators never hold a negative value and always fit
    [int32_t], even when a kernel-tap sum wraps; when the sums cannot wrap
    ([255 * kernel_length < 2^31]) every accumulator value is at most
    [255 * kernel_length]. *)
Theorem accumulators_in_range (p : params) (b : buffers) :
  valid_input p b →
  ∃ h v,
    accumulate p b = Some (h, v)
    ∧ Z.of_nat (length h) = total_pixels p
    ∧ Z.of_nat (length v) = total_pixels p
    ∧ (∀ j, 0 ≤ j < total_pixels p →
         0 ≤ h !!! Z.to_nat j < 2 ^ 31 ∧ 0 ≤ v !!! Z.to_nat j < 2 ^ 31)
    ∧ (255 * kernel_length p < 2 ^ 31 →
       ∀ j, 0 ≤ j < total_pixels p →
         h !!! Z.to_nat j ≤ 255 * kernel_length p
         ∧ v !!! Z.to_nat j ≤ 255 * kernel_length p).
Proof.
  intros Hvalid. exists (h_final p b), (v_final p b).
  split; [by apply accumulate_run|].
  split; [by apply h_final_length|]. split; [by apply v_final_length|].
  assert (Hchan : ∀ offs data j,
    offsets_in_bounds p offs → Z.of_nat (length data) = total_pixels p →
    Forall (λ s, 0 ≤ s < 256) data →
    0 ≤ j < total_pixels p →
    let x := foldl raise (calloc (total_pixels p))
               (updates p offs data (seqZ 0 (num_angles p))) !!! Z.to_nat j in
    0 ≤ x < 2 ^ 31 ∧ (255 * kernel_length p < 2 ^ 31 → x ≤ 255 * kernel_length p)).
  { intros offs data j Hoffs Hlen Hbytes Hj x. subst x.
    rewrite (accumulated_lookup p b Hvalid) by done.
    pose proof (vi_kernel p b Hvalid) as HK.
    destruct (best_attained j (updates p offs data (seqZ 0 (num_angles p))) 0)
      as [->|(s & (a & y & x & Ha & Hyx & -> & ->)%elem_of_updates & E)];
      [split; lia|].
    pose proof (best_ge_start (y * cols p + x)
      (updates p offs data (seqZ 0 (num_angles p))) 0) as Hge.
    rewrite E in Hge |- *.
    pose proof (tap_sum_int32 (kernel_length p) offs data a (y * cols p + x)).
    split; [lia|]. intros Hfit. apply elem_of_seqZ in Ha.
    destruct (tap_sum_plain p b Hvalid offs data a y x Hoffs Hlen Hbytes Hfit
                ltac:(lia) Hyx) as [-> _].
    unfold kernel_sum.
    etrans; [apply plain_sum_upper|rewrite length_seqZ; lia].
    intros k Hk%elem_of_seqZ.
    apply (Forall_lookup_total_1 (λ s, 0 ≤ s < 256) data); [done|].
    specialize (Hoffs a k y x ltac:(lia) ltac:(lia) Hyx). lia. }
  destruct Hvalid as [? ? ? ? ? ? ? ? ? ? ? ? ? ? ? ?] eqn:Hv. clear Hv.
  split.
  - intros j Hj. split; [by apply (Hchan (h_offsets b) (gy_data b))
                         | by apply (Hchan (v_offsets b) (gx_data b))].
  - intros Hfit j Hj. split; [by apply (Hchan (h_offsets b) (gy_data b))
                              | by apply (Hchan (v_offsets b) (gx_data b))].
Qed.

(** * The JNI entry point *)

Lemma as_jbyte_as_uint8 (x : Z) : -128 ≤ x < 128 → as_jbyte (as_uint8 x) = x.
Proof.
  intros Hx. unfold as_jbyte, as_uint8.
  destruct (decide (0 ≤ x)).
  - rewrite Z.mod_small by lia. by rewrite decide_True by lia.
  - replace (x `mod` 256) with (x + 256).
    + rewrite decide_False by lia. lia.
    + apply (Z.mod_unique_pos x 256 (-1) (x + 256)); lia.
Qed.

Lemma jbytes_round_trip (l : list Z) :
  Forall (λ x, -128 ≤ x < 128) l → as_jbyte <$> (as_uint8 <$> l) = l.
Proof.
  induction 1 as [|x l Hx _ IH]; csimpl; [done|].
  by rewrite as_jbyte_as_uint8, IH.
Qed.

Lemma release_untouched_bytes (a : access) (mode : Z) (l : list Z) :
  Forall (λ x, -128 ≤ x < 128) l →
  release_critical a mode (fmap as_jbyte) l (get_critical a (as_uint8 <$> l)) = l.
Proof.
  intros Hl. destruct a; simpl; [done | by apply jbytes_round_trip |].
  case_decide; [done | by apply jbytes_round_trip].
Qed.

Lemma release_untouched_ints (a : access) (mode : Z) (l : list Z) :
  release_critical a mode id l (get_critical a l) = l.
Proof. destruct a; simpl; [done | done |]. by case_decide. Qed.

Lemma guarded_call_skipped (p : params) (hp : heap) (jni : jni_outcome)
    (j : java_arrays) :
  all_available jni = false →
  guarded_call p hp (acquire jni j) = Some (acquire jni j).
Proof.
  destruct jni as [[] [] [] [] []]; intros Hna; try discriminate Hna; reflexivity.
Qed.

Lemma guarded_call_made (p : params) (hp : heap) (jni : jni_outcome)
    (j : java_arrays) :
  all_available jni = true →
  guarded_call p hp (acquire jni j)
  = (b' ← directional_gradient_accumulate p (native_view j) hp;
     Some {| n_gy := Some (gy_data b'); n_gx := Some (gx_data b');
             n_result := Some (result_data b');
             n_h_offsets := Some (h_offsets b');
             n_v_offsets := Some (v_offsets b') |}).
Proof.
  destruct jni as [[] [] [] [] []]; intros Hna; try discriminate Hna; reflexivity.
Qed.

(** X13. When any of the five arrays cannot be obtained, the kernel is
    not called (no precondition of the kernel is needed), the entry point
    returns, and all five Java arrays, the result array included, hold
    what they held before. *)
Theorem unavailable_array_leaves_java_arrays (jni : jni_outcome) (hp : heap)
    (p : params) (j : java_arrays) :
  all_available jni = false →
  Forall (λ x, -128 ≤ x < 128) (j_gy j) →
  Forall (λ x, -128 ≤ x < 128) (j_gx j) →
  Forall (λ x, -128 ≤ x < 128) (j_result j) →
  ∃ calls, nativeDirectionalGradient jni hp p j = Some (j, calls).
Proof.
  intros Hna Hgy Hgx Hr. unfold nativeDirectionalGradient.
  rewrite guarded_call_skipped by done. cbn [mbind option_bind].
  eexists. f_equal. f_equal. unfold release_all, acquire.
  cbn [n_gy n_gx n_result n_h_offsets n_v_offsets].
  rewrite !release_untouched_bytes, !release_untouched_ints by done.
  by destruct j.
Qed.

(** X14. When all five arrays are obtained and the kernel's input is
    valid, the Java result array on return holds the kernel's output
    bytes read as [jbyte], whether the VM handed out the arrays
    themselves or copies; every result element is 0 or -1 ([-1] for the
    byte 255), and the four input arrays are unchanged. *)
Theorem java_result_is_kernel_output (jni : jni_outcome) (hp : heap)
    (p : params) (j : java_arrays) :
  all_available jni = true →
  valid_input p (native_view j) →
  is_Some (compute_target p) →
  Forall (λ x, -128 ≤ x < 128) (j_gy j) →
  Forall (λ x, -128 ≤ x < 128) (j_gx j) →
  ∃ out calls,
    directional_gradient_accumulate p (native_view j) hp
    = Some (with_result (native_view j) out)
    ∧ nativeDirectionalGradient jni hp p j
      = Some (MkJava (j_gy j) (j_gx j) (as_jbyte <$> out)
                (j_h_offsets j) (j_v_offsets j), calls)
    ∧ Forall (λ x, x = 0 ∨ x = -1) (as_jbyte <$> out)
    ∧ ∀ i, (i < length out)%nat →
        ((as_jbyte <$> out) !!! i = -1 ↔ out !!! i = 255).
Proof.
  intros Hall Hvalid [target Ht] Hgy Hgx.
  assert (∃ out, directional_gradient_accumulate p (native_view j) hp
                 = Some (with_result (native_view j) out)
                 ∧ Forall (λ o, o = 0 ∨ o = 255) out) as (out & Hrun & Hbin).
  { destruct (h_response_ok hp && v_response_ok hp) eqn:Hheap.
    - apply andb_true_iff in Hheap as [Hh Hv].
      eexists. split; [by apply (success_output p _ Hvalid hp target)|].
      apply Forall_fmap, Forall_true. intros r. apply binary_value_cases.
    - eexists. split; [by apply failure_output|]. apply Forall_replicate. by left. }
  exists out. eexists. split; [done|].
  split; [|split].
  - unfold nativeDirectionalGradient. rewrite guarded_call_made by done.
    rewrite Hrun. cbn [mbind option_bind]. f_equal. f_equal.
    unfold release_all, with_result, native_view.
    cbn [n_gy n_gx n_result n_h_offsets n_v_offsets gy_data gx_data result_data
         h_offsets v_offsets].
    assert (∀ a l, non_null a = true →
              Forall (λ x, -128 ≤ x < 128) l →
              release_critical a JNI_ABORT (fmap as_jbyte) l
                (Some (as_uint8 <$> l)) = l) as Hbytes.
    { intros a l Ha Hl. destruct a; [done | by apply jbytes_round_trip | done]. }
    assert (∀ a l, non_null a = true →
              release_critical a JNI_ABORT id l (Some l) = l) as Hints.
    { intros a l Ha. by destruct a. }
    assert (∀ a, non_null a = true →
              release_critical a 0 (fmap as_jbyte) (j_result j) (Some out)
              = as_jbyte <$> out) as Hres.
    { intros a Ha. by destruct a. }
    unfold all_available in Hall.
    repeat (apply andb_true_iff in Hall as [Hall ?]).
    rewrite !Hbytes, !Hints, Hres by done. done.
  - eapply Forall_fmap, Forall_impl; [exact Hbin|].
    intros o [-> | ->]; [by left | by right].
  - intros i Hi. rewrite (list_lookup_total_fmap as_jbyte) by done.
    apply (Forall_lookup_total_1 _ _ i) in Hbin; [|done].
    destruct Hbin as [-> | ->]; by vm_compute.
Qed.

(** X15. Whatever the five acquisitions yield, the arrays released are
    exactly the arrays obtained, in reverse order; the result array is
    released with mode 0 (copy back) and every other array with
    [JNI_ABORT]. *)
Theorem releases_mirror_acquisitions (jni : jni_outcome) (hp : heap)
    (p : params) (j j' : java_arrays) (calls : list jni_call) :
  nativeDirectionalGradient jni hp p j = Some (j', calls) →
  released_ids calls = reverse (acquired_ids calls)
  ∧ ∀ a mode, ReleaseCritical a mode ∈ calls →
      mode = match a with RESULT => 0 | _ => JNI_ABORT end.
Proof.
  unfold nativeDirectionalGradient. intros Hrun.
  destruct (all_available jni) eqn:Hall.
  - rewrite guarded_call_made in Hrun by done.
    destruct (directional_gradient_accumulate p (native_view j) hp) as [b'|];
      [|done].
    cbn [mbind option_bind] in Hrun. injection Hrun as <- <-.
    destruct jni as [[] [] [] [] []]; try discriminate Hall;
      (split; [reflexivity|]);
      intros a mode Hin; cbn in Hin;
      repeat (apply elem_of_cons in Hin as [Hin|Hin];
              [first [discriminate Hin | by injection Hin as -> ->]|]);
      by apply elem_of_nil in Hin.
  - rewrite guarded_call_skipped in Hrun by done.
    cbn [mbind option_bind] in Hrun. injection Hrun as <- <-.
    destruct jni as [[] [] [] [] []]; try discriminate Hall;
      (split; [reflexivity|]);
      intros a mode Hin; cbn in Hin;
      repeat (apply elem_of_cons in Hin as [Hin|Hin];
              [first [discriminate Hin | by injection Hin as -> ->]|]);
      by apply elem_of_nil in Hin.
Qed.

(** * The further properties on concrete inputs *)

(** X1 on scenario B. *)
Lemma kernel_defined_scenario_B :
  let p := scenario_B_params in
  let b := scenario_B_buffers (replicate 9 0) in
  valid_input p b
  ∧ total_pixels p ≤ 2 ^ 31 - 65
  ∧ Float32.leb Float32.zero (threshold_percentile p) = true
  ∧ Float32.leb (threshold_percentile p) Float32.one = true
  ∧ (∃ tr,
       run_stages p b = Some tr
       ∧ 0 ≤ t_target tr ≤ 2 ^ 31 - 128
       ∧ (total_pixels p ≤ 2 ^ 24 → t_target tr ≤ total_pixels p))
  ∧ ∀ hp, ∃ out,
      directional_gradient_accumulate p b hp = Some (with_result b out)
      ∧ Z.of_nat (length out) = total_pixels p.
Proof.
  assert (Hv : valid_input scenario_B_params (scenario_B_buffers (replicate 9 0)))
    by valid_concrete.
  assert (Hs : total_pixels scenario_B_params ≤ 2 ^ 31 - 65) by (by vm_compute).
  assert (H0 : Float32.leb Float32.zero (threshold_percentile scenario_B_params) = true)
    by (by vm_compute).
  assert (H1 : Float32.leb (threshold_percentile scenario_B_params) Float32.one = true)
    by (by vm_compute).
  exact (conj Hv (conj Hs (conj H0 (conj H1
           (kernel_defined_on_unit_percentiles _ _ Hv Hs H0 H1))))).
Defined.

(** X2 on scenario C with another prior content of the output buffer. *)
Lemma output_ignores_prior_result_scenario_C :
  let p := scenario_C_params in
  let b := scenario_C_buffers in
  let r := [9; 8; 7; 6; 5; 4; 3; 2; 1] in
  let hp := MkHeap true true in
  valid_input p b
  ∧ Z.of_nat (length r) = total_pixels p
  ∧ is_Some (compute_target p)
  ∧ ∃ out,
      directional_gradient_accumulate p b hp = Some (with_result b out)
      ∧ directional_gradient_accumulate p (with_result b r) hp
        = Some (with_result b out).
Proof.
  assert (Hv : valid_input scenario_C_params scenario_C_buffers) by valid_concrete.
  assert (Hr : Z.of_nat (length [9; 8; 7; 6; 5; 4; 3; 2; 1])
               = total_pixels scenario_C_params) by (by vm_compute).
  assert (Ht : is_Some (compute_target scenario_C_params))
    by (exists 8; by vm_compute).
  exact (conj Hv (conj Hr (conj Ht
           (output_ignores_prior_result _ _ _ (MkHeap true true) Hv Hr Ht)))).
Defined.

(** X3 on scenario C. *)
Lemma output_symmetric_in_channels_scenario_C :
  let p := scenario_C_params in
  let b := scenario_C_buffers in
  let hp := MkHeap true true in
  valid_input p b
  ∧ is_Some (compute_target p)
  ∧ ∃ out,
      directional_gradient_accumulate p b hp = Some (with_result b out)
      ∧ directional_gradient_accumulate p (swap_channels b) hp
        = Some (with_result (swap_channels b) out).
Proof.
  assert (Hv : valid_input scenario_C_params scenario_C_buffers) by valid_concrete.
  assert (Ht : is_Some (compute_target scenario_C_params))
    by (exists 8; by vm_compute).
  exact (conj Hv (conj Ht
           (output_symmetric_in_channels _ _ (MkHeap true true) Hv Ht))).
Defined.

(** X4 on the image of scenario B with a vertical margin of 2, which
    leaves no interior row. *)
Lemma degenerate_configuration_margin_2 :
  let p := MkParams 3 3 1 1 2 1 percentile_09 in
  let b := scenario_B_buffers (replicate 9 7) in
  let hp := MkHeap true true in
  valid_input p b
  ∧ is_Some (compute_target p)
  ∧ (num_angles p = 0 ∨ kernel_length p = 0
     ∨ rows p ≤ 2 * margin_y p ∨ cols p ≤ 2 * margin_x p)
  ∧ directional_gradient_accumulate p b hp
    = Some (with_result b (replicate (Z.to_nat (total_pixels p)) 0)).
Proof.
  assert (Hv : valid_input (MkParams 3 3 1 1 2 1 percentile_09)
                 (scenario_B_buffers (replicate 9 7))) by valid_concrete.
  assert (Ht : is_Some (compute_target (MkParams 3 3 1 1 2 1 percentile_09)))
    by (exists 8; by vm_compute).
  assert (Hd : num_angles (MkParams 3 3 1 1 2 1 percentile_09) = 0
               ∨ kernel_length (MkParams 3 3 1 1 2 1 percentile_09) = 0
               ∨ rows (MkParams 3 3 1 1 2 1 percentile_09)
                 ≤ 2 * margin_y (MkParams 3 3 1 1 2 1 percentile_09)
               ∨ cols (MkParams 3 3 1 1 2 1 percentile_09)
                 ≤ 2 * margin_x (MkParams 3 3 1 1 2 1 percentile_09))
    by (right; right; left; by vm_compute).
  exact (conj Hv (conj Ht (conj Hd
           (degenerate_configuration_zero_output _ _ (MkHeap true true) Hv Ht Hd)))).
Defined.

(** X5 on the all-zero 3x3 image (scenario A). *)
Lemma zero_gradients_scenario_A :
  let p := scenario_B_params in
  let b := MkBuffers (replicate 9 0) (replicate 9 0) (replicate 9 7) [0] [0] in
  let hp := MkHeap true true in
  valid_input p b
  ∧ is_Some (compute_target p)
  ∧ Forall (λ s, s = 0) (gy_data b)
  ∧ Forall (λ s, s = 0) (gx_data b)
  ∧ directional_gradient_accumulate p b hp
    = Some (with_result b (replicate (Z.to_nat (total_pixels p)) 0)).
Proof.
  assert (Hv : valid_input scenario_B_params
                 (MkBuffers (replicate 9 0) (replicate 9 0) (replicate 9 7) [0] [0]))
    by valid_concrete.
  assert (Ht : is_Some (compute_target scenario_B_params))
    by (exists 8; by vm_compute).
  assert (Hz : Forall (λ s : Z, s = 0) (replicate 9 0)) by (by repeat constructor).
  exact (conj Hv (conj Ht (conj Hz (conj Hz
           (zero_gradients_zero_output _ _ (MkHeap true true) Hv Ht Hz Hz))))).
Defined.

(** X6 on scenario B with the percentile 2.0. *)
Lemma target_above_total_percentile_2 :
  let p := with_percentile scenario_B_params (Float32.Fin 2 0) in
  let b := scenario_B_buffers (replicate 9 7) in
  let hp := MkHeap true true in
  valid_input p b
  ∧ compute_target p = Some 18
  ∧ total_pixels p < 18
  ∧ select_threshold (histogram_final p b) 18 = 255
  ∧ directional_gradient_accumulate p b hp
    = Some (with_result b (replicate (Z.to_nat (total_pixels p)) 0)).
Proof.
  assert (Hv : valid_input (with_percentile scenario_B_params (Float32.Fin 2 0))
                 (scenario_B_buffers (replicate 9 7))) by valid_concrete.
  assert (Ht : compute_target (with_percentile scenario_B_params (Float32.Fin 2 0))
               = Some 18) by (by vm_compute).
  assert (Hl : total_pixels (with_percentile scenario_B_params (Float32.Fin 2 0)) < 18)
    by (by vm_compute).
  exact (conj Hv (conj Ht (conj Hl
           (target_above_total_zero_output _ _ (MkHeap true true) 18 Hv Ht Hl)))).
Defined.

(** X7 on scenario C. *)
Lemma peak_normalizes_to_255_scenario_C :
  let p := scenario_C_params in
  let b := scenario_C_buffers in
  valid_input p b
  ∧ ∃ h v combined global_max normalized histogram,
      accumulate p b = Some (h, v)
      ∧ combine p h v = Some (combined, global_max)
      ∧ normalize p combined global_max (result_data b) = Some (normalized, histogram)
      ∧ ((∃ j, 0 ≤ j < total_pixels p ∧ 0 < combined !!! Z.to_nat j) →
         ∃ j, 0 ≤ j < total_pixels p
              ∧ combined !!! Z.to_nat j = global_max
              ∧ normalized !!! Z.to_nat j = 255
              ∧ 1 ≤ histogram !!! 255%nat)
      ∧ ((∀ j, 0 ≤ j < total_pixels p → combined !!! Z.to_nat j = 0) →
         global_max = 1
         ∧ ∀ j, 0 ≤ j < total_pixels p → normalized !!! Z.to_nat j = 0).
Proof.
  assert (Hv : valid_input scenario_C_params scenario_C_buffers) by valid_concrete.
  exact (conj Hv (peak_normalizes_to_255 _ _ Hv)).
Defined.

(** X8 on scenario C. *)
Lemma output_is_upper_level_set_scenario_C :
  let p := scenario_C_params in
  let b := scenario_C_buffers in
  valid_input p b
  ∧ compute_target p = Some 8
  ∧ ∃ tr,
      run_stages p b = Some tr
      ∧ ∀ i j, 0 ≤ i < total_pixels p → 0 ≤ j < total_pixels p →
          t_combined tr !!! Z.to_nat i ≤ t_combined tr !!! Z.to_nat j →
          t_normalized tr !!! Z.to_nat i ≤ t_normalized tr !!! Z.to_nat j
          ∧ (t_output tr !!! Z.to_nat i = 255 → t_output tr !!! Z.to_nat j = 255).
Proof.
  assert (Hv : valid_input scenario_C_params scenario_C_buffers) by valid_concrete.
  assert (Ht : compute_target scenario_C_params = Some 8) by (by vm_compute).
  exact (conj Hv (conj Ht (output_is_upper_level_set _ _ 8 Hv Ht))).
Defined.

(** X9 on scenario C. *)
Lemma histogram_counts_every_pixel_scenario_C :
  let p := scenario_C_params in
  let b := scenario_C_buffers in
  valid_input p b
  ∧ ∃ h v combined global_max normalized histogram,
      accumulate p b = Some (h, v)
      ∧ combine p h v = Some (combined, global_max)
      ∧ normalize p combined global_max (result_data b) = Some (normalized, histogram)
      ∧ length histogram = 256%nat
      ∧ (∀ k, 0 ≤ k < 256 → histogram !!! Z.to_nat k = count_eq k normalized)
      ∧ cumulative histogram 255 = total_pixels p.
Proof.
  assert (Hv : valid_input scenario_C_params scenario_C_buffers) by valid_concrete.
  exact (conj Hv (histogram_counts_every_pixel _ _ Hv)).
Defined.

(** X10 on scenario B. *)
Lemma foreground_count_bound_scenario_B :
  let p := scenario_B_params in
  let b := scenario_B_buffers (replicate 9 0) in
  valid_input p b
  ∧ compute_target p = Some 8
  ∧ ∃ tr,
      run_stages p b = Some tr
      ∧ count_255 (t_output tr) ≤ Z.max 0 (total_pixels p - 8).
Proof.
  assert (Hv : valid_input scenario_B_params (scenario_B_buffers (replicate 9 0)))
    by valid_concrete.
  assert (Ht : compute_target scenario_B_params = Some 8) by (by vm_compute).
  exact (conj Hv (conj Ht (foreground_count_bound _ _ 8 Hv Ht))).
Defined.

(** X11 on scenario C with the percentile 0. *)
Lemma nonpositive_percentile_scenario_C :
  let p := with_percentile scenario_C_params Float32.zero in
  let b := scenario_C_buffers in
  valid_input p b
  ∧ Float32.leb (threshold_percentile p) Float32.zero = true
  ∧ compute_target p = Some 0
  ∧ ∃ tr,
      run_stages p b = Some tr
      ∧ t_threshold tr = 0
      ∧ ∀ j, 0 ≤ j < total_pixels p →
          (t_output tr !!! Z.to_nat j = 255 ↔ 0 < t_normalized tr !!! Z.to_nat j)
          ∧ (0 < t_normalized tr !!! Z.to_nat j
             ↔ t_global_max tr ≤ 255 * t_combined tr !!! Z.to_nat j).
Proof.
  assert (Hv : valid_input (with_percentile scenario_C_params Float32.zero)
                 scenario_C_buffers) by valid_concrete.
  assert (Hq : Float32.leb (threshold_percentile
                  (with_percentile scenario_C_params Float32.zero))
                 Float32.zero = true) by (by vm_compute).
  assert (Ht : compute_target (with_percentile scenario_C_params Float32.zero)
               = Some 0) by (by vm_compute).
  exact (conj Hv (conj Hq (conj Ht
           (nonpositive_percentile_keeps_all_responses _ _ 0 Hv Hq Ht)))).
Defined.

(** X12 on scenario C. *)
Lemma accumulators_in_range_scenario_C :
  let p := scenario_C_params in
  let b := scenario_C_buffers in
  valid_input p b
  ∧ ∃ h v,
      accumulate p b = Some (h, v)
      ∧ Z.of_nat (length h) = total_pixels p
      ∧ Z.of_nat (length v) = total_pixels p
      ∧ (∀ j, 0 ≤ j < total_pixels p →
           0 ≤ h !!! Z.to_nat j < 2 ^ 31 ∧ 0 ≤ v !!! Z.to_nat j < 2 ^ 31)
      ∧ (255 * kernel_length p < 2 ^ 31 →
         ∀ j, 0 ≤ j < total_pixels p →
           h !!! Z.to_nat j ≤ 255 * kernel_length p
           ∧ v !!! Z.to_nat j ≤ 255 * kernel_length p).
Proof.
  assert (Hv : valid_input scenario_C_params scenario_C_buffers) by valid_concrete.
  exact (conj Hv (accumulators_in_range _ _ Hv)).
Defined.

(** X13 with the result array unavailable. *)
Lemma unavailable_result_array :
  let jni := MkJni Direct Copied Unavailable Direct Copied in
  let hp := MkHeap true true in
  let p := scenario_B_params in
  let j := MkJava [0; 0; 0; 0; 100; 0; 0; 0; 0] [0; 0; 0; 0; 50; 0; 0; 0; 0]
             [-1; 2; -3; 4; -5; 6; -7; 8; -9] [0] [0] in
  all_available jni = false
  ∧ Forall (λ x, -128 ≤ x < 128) (j_gy j)
  ∧ Forall (λ x, -128 ≤ x < 128) (j_gx j)
  ∧ Forall (λ x, -128 ≤ x < 128) (j_result j)
  ∧ ∃ calls, nativeDirectionalGradient jni hp p j = Some (j, calls).
Proof.
  assert (Ha : all_available (MkJni Direct Copied Unavailable Direct Copied) = false)
    by reflexivity.
  assert (Hgy : Forall (λ x, -128 ≤ x < 128) [0; 0; 0; 0; 100; 0; 0; 0; 0])
    by (repeat constructor; lia).
  assert (Hgx : Forall (λ x, -128 ≤ x < 128) [0; 0; 0; 0; 50; 0; 0; 0; 0])
    by (repeat constructor; lia).
  assert (Hr : Forall (λ x, -128 ≤ x < 128) [-1; 2; -3; 4; -5; 6; -7; 8; -9])
    by (repeat constructor; lia).
  exact (conj Ha (conj Hgy (conj Hgx (conj Hr
           (unavailable_array_leaves_java_arrays _ (MkHeap true true)
              scenario_B_params (MkJava _ _ _ [0] [0]) Ha Hgy Hgx Hr))))).
Defined.

(** X14 on scenario B with a hot pixel of 200 (the [jbyte] -56). *)
Lemma java_result_scenario_B :
  let jni := MkJni Direct Copied Copied Direct Copied in
  let hp := MkHeap true true in
  let p := scenario_B_params in
  let j := MkJava [0; 0; 0; 0; -56; 0; 0; 0; 0] [0; 0; 0; 0; 50; 0; 0; 0; 0]
             [-1; 2; -3; 4; -5; 6; -7; 8; -9] [0] [0] in
  all_available jni = true
  ∧ valid_input p (native_view j)
  ∧ is_Some (compute_target p)
  ∧ Forall (λ x, -128 ≤ x < 128) (j_gy j)
  ∧ Forall (λ x, -128 ≤ x < 128) (j_gx j)
  ∧ ∃ out calls,
      directional_gradient_accumulate p (native_view j) hp
      = Some (with_result (native_view j) out)
      ∧ nativeDirectionalGradient jni hp p j
        = Some (MkJava (j_gy j) (j_gx j) (as_jbyte <$> out)
                  (j_h_offsets j) (j_v_offsets j), calls)
      ∧ Forall (λ x, x = 0 ∨ x = -1) (as_jbyte <$> out)
      ∧ ∀ i, (i < length out)%nat →
          ((as_jbyte <$> out) !!! i = -1 ↔ out !!! i = 255).
Proof.
  assert (Ha : all_available (MkJni Direct Copied Copied Direct Copied) = true)
    by reflexivity.
  assert (Hv : valid_input scenario_B_params
                 (native_view (MkJava [0; 0; 0; 0; -56; 0; 0; 0; 0]
                                 [0; 0; 0; 0; 50; 0; 0; 0; 0]
                                 [-1; 2; -3; 4; -5; 6; -7; 8; -9] [0] [0])))
    by (constructor; try (by vm_compute);
        try (apply offsets_in_bounds_checked; vm_compute; reflexivity);
        cbn; repeat constructor; by vm_compute).
  assert (Ht : is_Some (compute_target scenario_B_params))
    by (exists 8; by vm_compute).
  assert (Hgy : Forall (λ x, -128 ≤ x < 128) [0; 0; 0; 0; -56; 0; 0; 0; 0])
    by (repeat constructor; lia).
  assert (Hgx : Forall (λ x, -128 ≤ x < 128) [0; 0; 0; 0; 50; 0; 0; 0; 0])
    by (repeat constructor; lia).
  exact (conj Ha (conj Hv (conj Ht (conj Hgy (conj Hgx
           (java_result_is_kernel_output _ (MkHeap true true) _
              (MkJava _ _ _ [0] [0]) Ha Hv Ht Hgy Hgx)))))).
Defined.

(** X15 with the second gradient array unavailable. *)
Lemma releases_mirror_acquisitions_gx_unavailable :
  let jni := MkJni Direct Unavailable Copied Direct Copied in
  let hp := MkHeap true true in
  let p := scenario_B_params in
  let j := MkJava [0; 0; 0; 0; 100; 0; 0; 0; 0] [0; 0; 0; 0; 50; 0; 0; 0; 0]
             [1; 2; 3; 4; 5; 6; 7; 8; 9] [0] [0] in
  ∃ j' calls,
    nativeDirectionalGradient jni hp p j = Some (j', calls)
    ∧ acquired_ids calls = [GY; RESULT; HOFFSETS; VOFFSETS]
    ∧ released_ids calls = reverse (acquired_ids calls)
    ∧ ∀ a mode, ReleaseCritical a mode ∈ calls →
        mode = match a with RESULT => 0 | _ => JNI_ABORT end.
Proof.
  eexists _, _. split; [vm_compute; reflexivity|]. split; [reflexivity|].
  exact (releases_mirror_acquisitions
           (MkJni Direct Unavailable Copied Direct Copied) (MkHeap true true)
           scenario_B_params
           (MkJava [0; 0; 0; 0; 100; 0; 0; 0; 0] [0; 0; 0; 0; 50; 0; 0; 0; 0]
              [1; 2; 3; 4; 5; 6; 7; 8; 9] [0] [0]) _ _
           ltac:(vm_compute; reflexivity)).
Defined.

(** * The percentile 1.0 *)

(** For at most [2^24] pixels the target at percentile 1.0 is the number
    of pixels. *)
Lemma mul_of_int_one (n v : Z) :
  0 ≤ n ≤ 2 ^ 24 →
  Float32.to_int (Float32.mul (Float32.of_int n) Float32.one) = Some v →
  v = n.
Proof.
  intros Hn Hv. pose proof (Float32Facts.of_int_nonneg n ltac:(lia)) as HN.
  unfold Float32.of_int in *.
  destruct (Float32.round n 0) as [|neg|N E] eqn:EF; [done | done |].
  unfold Float32.one in Hv. simpl in Hv. rewrite Z.mul_1_r, Z.add_0_r in Hv.
  set (L := 149 + Z.abs E).
  pose proof (Float32Facts.round_scaled n 0 L ltac:(lia) ltac:(lia)) as Hr.
  rewrite EF in Hr. destruct Hr as [HE Hr].
  rewrite Z.add_0_l, Float32Facts.srounded_exact_int in Hr by lia.
  apply (Float32Facts.to_int_round _ _ L) in Hv as [-> _]; [|lia..].
  rewrite Hr, Float32Facts.srounded_exact_int by lia.
  apply Z.quot_mul. pose proof (Float32Facts.pow2_pos L ltac:(lia)). lia.
Qed.

Lemma count_le_full (t : Z) (values : list Z) :
  count_le t values = Z.of_nat (length values) → Forall (λ v, v ≤ t) values.
Proof.
  unfold count_le. induction values as [|v values IH]; [by constructor|].
  rewrite filter_cons. pose proof (length_filter (λ v, v ≤ t) values) as Hlen.
  case_decide; simpl; intros Heq; [|lia].
  constructor; [done|]. apply IH. lia.
Qed.

(** X16. At percentile 1.0 and with at most [2^24] pixels the target is
    the number of pixels, the threshold is a level no normalized value
    exceeds, and the output is all zero. *)
Theorem percentile_one_zero_output (p : params) (b : buffers) (hp : heap) :
  valid_input p b →
  threshold_percentile p = Float32.one →
  total_pixels p ≤ 2 ^ 24 →
  compute_target p = Some (total_pixels p)
  ∧ Forall (λ v, v ≤ select_threshold (histogram_final p b) (total_pixels p))
      (normalized_final p b)
  ∧ directional_gradient_accumulate p b hp
    = Some (with_result b (replicate (Z.to_nat (total_pixels p)) 0)).
Proof.
  intros Hvalid Hq Hsmall.
  pose proof (total_pixels_nonneg p b Hvalid) as Hnn.
  pose proof (normalized_final_length p b Hvalid) as Hnlen.
  assert (compute_target p = Some (total_pixels p)) as Ht.
  { unfold compute_target. rewrite Hq.
    destruct (Float32Facts.target_defined (total_pixels p) Float32.one
                ltac:(lia) eq_refl eq_refl) as (v & Hv & _).
    rewrite Hv. f_equal. by apply mul_of_int_one. }
  assert (Forall (λ v, v ≤ select_threshold (histogram_final p b) (total_pixels p))
            (normalized_final p b)) as Hall.
  { unfold select_threshold.
    pose proof (find_bin_first (histogram_final p b) (total_pixels p)) as Hfirst.
    destruct (find_bin (histogram_final p b) (total_pixels p)) as [i|]; simpl.
    - destruct Hfirst as (Hi & Hreach & _).
      rewrite (cumulative_final p b) in Hreach by lia.
      apply count_le_full.
      pose proof (count_le_mono i 255 (normalized_final p b) ltac:(lia)) as Hm.
      rewrite (count_le_all 255) in Hm; [lia|].
      eapply Forall_impl; [apply normalized_final_range|]. simpl. lia.
    - eapply Forall_impl; [apply normalized_final_range|]. simpl. lia. }
  split; [done|]. split; [done|].
  destruct (h_response_ok hp && v_response_ok hp) eqn:Hheap;
    [|by apply failure_output].
  apply andb_true_iff in Hheap as [Hhok Hvok].
  rewrite (success_output p b Hvalid hp _ Ht Hhok Hvok). do 2 f_equal.
  rewrite binary_value_below by done. f_equal. lia.
Qed.

(** X16 on scenario B at percentile 1.0. *)
Lemma percentile_one_scenario_B :
  let p := with_percentile scenario_B_params Float32.one in
  let b := scenario_B_buffers (replicate 9 7) in
  let hp := MkHeap true true in
  valid_input p b
  ∧ threshold_percentile p = Float32.one
  ∧ total_pixels p ≤ 2 ^ 24
  ∧ compute_target p = Some (total_pixels p)
  ∧ Forall (λ v, v ≤ select_threshold (histogram_final p b) (total_pixels p))
      (normalized_final p b)
  ∧ directional_gradient_accumulate p b hp
    = Some (with_result b (replicate (Z.to_nat (total_pixels p)) 0)).
Proof.
  assert (Hv : valid_input (with_percentile scenario_B_params Float32.one)
                 (scenario_B_buffers (replicate 9 7))) by valid_concrete.
  assert (Hq : threshold_percentile (with_percentile scenario_B_params Float32.one)
               = Float32.one) by reflexivity.
  assert (Hs : total_pixels (with_percentile scenario_B_params Float32.one) ≤ 2 ^ 24)
    by (by vm_compute).
  exact (conj Hv (conj Hq (conj Hs
           (percentile_one_zero_output _ _ (MkHeap true true) Hv Hq Hs)))).
Defined.
